(** * A proof-of-work ledger: [addblock.py]

    The program keeps an append-only chain of blocks.  A block carries a batch
    of transaction payloads and the digest of its predecessor; the engine
    admits a block only when it links to the current tip and its digest meets
    a difficulty target, and it produces blocks by searching for a nonce.

    Conventions of the embedding.
    - A Python [str] is a Rocq [string] holding its UTF-8 bytes, so that
      [s.encode()] is the identity on the representation.
    - A Python [int] is a [Z]; [str(n)] prints it in decimal.
    - A Python [list] is an object with an identity: the store maps the
      location of a list object to its current contents, and a field that
      holds a list holds its location.  [append] writes the store in place,
      a list display [[]] allocates.
    - A [Block] is represented by the values of its fields.  The engine
      writes to a block only while it searches for a nonce, before the block
      enters the chain.
    - [time.time()] is an input of the operation that reads the clock.
    - The [while] loop of [proof_of_work] has no bound; its embedding takes
      a number of iterations it may spend and answers [None] when they do
      not suffice. *)

From Stdlib Require Import ZArith String Ascii List Lia Bool DecimalString.
From stdpp Require Import base option list gmap.
Import ListNotations.

Local Open Scope string_scope.
Local Open Scope list_scope.
Local Open Scope Z_scope.

(** ** [hashlib.sha256(data).hexdigest()] *)

Module SHA256.

Definition mask32 (x : Z) : Z := Z.land x 0xffffffff.
Definition add32 (x y : Z) : Z := mask32 (x + y).
Definition rotr (n x : Z) : Z :=
  Z.lor (Z.shiftr x n) (mask32 (Z.shiftl x (32 - n))).
Definition xor3 (x y z : Z) : Z := Z.lxor (Z.lxor x y) z.

Definition choose (e f g : Z) : Z :=
  Z.lxor (Z.land e f) (Z.land (Z.lxor e 0xffffffff) g).
Definition majority (a b c : Z) : Z :=
  xor3 (Z.land a b) (Z.land a c) (Z.land b c).
Definition big_sigma0 (a : Z) : Z := xor3 (rotr 2 a) (rotr 13 a) (rotr 22 a).
Definition big_sigma1 (e : Z) : Z := xor3 (rotr 6 e) (rotr 11 e) (rotr 25 e).
Definition small_sigma0 (w : Z) : Z := xor3 (rotr 7 w) (rotr 18 w) (Z.shiftr w 3).
Definition small_sigma1 (w : Z) : Z := xor3 (rotr 17 w) (rotr 19 w) (Z.shiftr w 10).

(** The constants of the standard are fractional parts of roots of the
    first primes: 32 bits of the square roots of the first eight for the
    initial digest, 32 bits of the cube roots of the first sixty-four for the
    rounds. *)
Definition is_prime (n : Z) : bool :=
  forallb (fun d => negb (n mod d =? 0)) (List.map Z.of_nat (seq 2 (Z.to_nat n - 2))).

Definition first_primes (count : nat) : list Z :=
  take count (List.filter is_prime (List.map Z.of_nat (seq 2 310))).

(** The largest [r] in [lo, hi) with [r ^ 3 <= x], by bisection. *)
Fixpoint cube_root_between (steps : nat) (lo hi x : Z) : Z :=
  match steps with
  | O => lo
  | S steps' =>
      let mid := (lo + hi) / 2 in
      if mid * mid * mid <=? x
      then cube_root_between steps' mid hi x
      else cube_root_between steps' lo mid x
  end.

Definition cube_root_fraction (p : Z) : Z :=
  mask32 (cube_root_between 40 0 (2 ^ 36) (Z.shiftl p 96)).

Definition square_root_fraction (p : Z) : Z :=
  mask32 (Z.sqrt (Z.shiftl p 64)).

Definition round_constants : list Z :=
  Eval vm_compute in List.map cube_root_fraction (first_primes 64).

Definition initial_digest : list Z :=
  Eval vm_compute in List.map square_root_fraction (first_primes 8).

(** Big-endian bytes of [x], [n] of them. *)
Fixpoint be_bytes (n : nat) (x : Z) : list Z :=
  match n with
  | O => []
  | S m => Z.land (Z.shiftr x (8 * Z.of_nat m)) 0xff :: be_bytes m x
  end.

Definition bytes_of_string (s : string) : list Z :=
  List.map (fun c => Z.of_N (N_of_ascii c)) (list_ascii_of_string s).

(** The message, the byte 0x80, zero bytes up to 56 modulo 64, and the
    length of the message in bits on eight bytes. *)
Definition pad (msg : list Z) : list Z :=
  let len := Z.of_nat (length msg) in
  msg ++ [0x80] ++ repeat 0 (Z.to_nat ((55 - len) mod 64)) ++ be_bytes 8 (8 * len).

Fixpoint words_of_bytes (bs : list Z) : list Z :=
  match bs with
  | b0 :: b1 :: b2 :: b3 :: rest =>
      Z.lor (Z.shiftl b0 24) (Z.lor (Z.shiftl b1 16) (Z.lor (Z.shiftl b2 8) b3))
      :: words_of_bytes rest
  | _ => []
  end.

Fixpoint chunks (n : nat) (ws : list Z) : list (list Z) :=
  match n with
  | O => []
  | S m =>
      match ws with
      | [] => []
      | _ => take 16 ws :: chunks m (drop 16 ws)
      end
  end.

(** One round.  The window holds the sixteen schedule words W[t..t+15]. *)
Definition round (acc : list Z * list Z) (k : Z) : list Z * list Z :=
  match acc with
  | ([a; b; c; d; e; f; g; h],
     [w0; w1; w2; w3; w4; w5; w6; w7; w8; w9; w10; w11; w12; w13; w14; w15]) =>
      let t1 := add32 (add32 (add32 (add32 h (big_sigma1 e)) (choose e f g)) k) w0 in
      let t2 := add32 (big_sigma0 a) (majority a b c) in
      let w16 := add32 (add32 (add32 (small_sigma1 w14) w9) (small_sigma0 w1)) w0 in
      ([add32 t1 t2; a; b; c; add32 d t1; e; f; g],
       [w1; w2; w3; w4; w5; w6; w7; w8; w9; w10; w11; w12; w13; w14; w15; w16])
  | _ => acc
  end.

Definition compress (digest block : list Z) : list Z :=
  let '(regs, _) := fold_left round round_constants (digest, block) in
  List.map (fun p => add32 (fst p) (snd p)) (combine digest regs).

Definition hex_digit (d : Z) : ascii :=
  if d <? 10 then ascii_of_N (Z.to_N (48 + d)) else ascii_of_N (Z.to_N (87 + d)).

Fixpoint hex_of_word (n : nat) (w : Z) : string :=
  match n with
  | O => EmptyString
  | S m => String (hex_digit (Z.land (Z.shiftr w (4 * Z.of_nat m)) 0xf)) (hex_of_word m w)
  end.

Definition digest_words (data : string) : list Z :=
  let ws := words_of_bytes (pad (bytes_of_string data)) in
  fold_left compress (chunks (length ws) ws) initial_digest.

Definition hexdigest (data : string) : string :=
  String.concat "" (List.map (hex_of_word 8) (digest_words data)).

End SHA256.

(** ** Python values *)

(** [str(x)], which is also what a replacement field [{x}] of an f-string
    prints. *)
Class Str (A : Type) := str : A -> string.

#[export] Instance int_str : Str Z :=
  fun n => NilZero.string_of_int (Z.to_int n).

#[export] Instance str_str : Str string := fun s => s.

(** A float, given by the text that [str] prints for it. *)
Record pyfloat := Float { float_repr : string }.

#[export] Instance float_str : Str pyfloat := float_repr.

(** [sep.join(parts)] *)
Definition join (sep : string) (parts : list string) : string :=
  String.concat sep parts.

(** [s * n]: no copy at all when [n] is not positive. *)
Definition str_mul (s : string) (n : Z) : string :=
  join "" (repeat s (Z.to_nat n)).

(** [s.startswith(p)] *)
Definition startswith (s p : string) : bool := String.prefix p s.

(** The number of characters ['0'] at the head of [s]. *)
Fixpoint leading_zeros (s : string) : nat :=
  match s with
  | String "0" rest => S (leading_zeros rest)
  | _ => O
  end.

(** *** List objects *)

Abbreviation loc := nat (only parsing).
Abbreviation store := (gmap nat (list string)) (only parsing).

Definition contents (h : store) (l : loc) : list string :=
  default [] (h !! l).

(** A list display: a new object, distinct from every object of the store. *)
Definition alloc (h : store) (v : list string) : loc * store :=
  let l := fresh (dom h) in (l, <[l := v]> h).

(** [l.append(x)] *)
Definition list_append (h : store) (l : loc) (x : string) : store :=
  <[l := contents h l ++ [x]]> h.

(** *** Outcomes *)

Inductive exn := IndexError.

Inductive outcome (A : Type) :=
| Return (v : A)
| Raise (e : exn).
Arguments Return {A} v.
Arguments Raise {A} e.

(** *** The two parameters of the program *)

(** [sha256 s] stands for [hashlib.sha256(s.encode()).hexdigest()]. *)
Class Hashlib := sha256 : string -> string.

(** [difficulty] stands for the class attribute [Blockchain.difficulty]. *)
Class ClassAttributes := difficulty : Z.

(** ** The program *)

Section Ledger.

(** The type of [time.time()] and of the [timestamp] field. *)
Context {Time : Type} {Time_str : Str Time}.

Context {hl : Hashlib} {attrs : ClassAttributes}.

(** *** class Block *)

Record Block := mkBlock {
  index : Z;
  transactions : loc;
  timestamp : Time;
  previous_hash : string;
  nonce : Z;
  transactions_hash : string;
  hash : string
}.

(** [block.nonce = n] *)
Definition set_nonce (n : Z) (b : Block) : Block :=
  mkBlock (index b) (transactions b) (timestamp b) (previous_hash b) n
          (transactions_hash b) (hash b).

(** [block.hash = h] *)
Definition set_hash (h : string) (b : Block) : Block :=
  mkBlock (index b) (transactions b) (timestamp b) (previous_hash b) (nonce b)
          (transactions_hash b) h.

(** [block.transactions_hash = h] *)
Definition set_transactions_hash (h : string) (b : Block) : Block :=
  mkBlock (index b) (transactions b) (timestamp b) (previous_hash b) (nonce b)
          h (hash b).

Definition compute_transactions_hash (h : store) (self : Block) : string :=
  let transactions_string := join "" (contents h (transactions self)) in
  sha256 transactions_string.

Definition compute_hash (self : Block) : string :=
  let block_string :=
    join "" [str (index self); str (timestamp self); previous_hash self;
             str (nonce self); transactions_hash self] in
  sha256 block_string.

(** [Block(index, transactions, timestamp, previous_hash, nonce)]: the two
    digests are filled in after the five arguments are stored, the second
    from the first. *)
Definition Block_init (h : store) (index : Z) (transactions : loc)
    (timestamp : Time) (previous_hash : string) (nonce : Z) : Block :=
  let self := mkBlock index transactions timestamp previous_hash nonce "" "" in
  let self := set_transactions_hash (compute_transactions_hash h self) self in
  set_hash (compute_hash self) self.

(** *** class Blockchain *)

Record Blockchain := mkBlockchain {
  unconfirmed_transactions : loc;
  chain : list Block
}.

(** The engine and the store its lists live in. *)
Record Config := mkConfig {
  heap : store;
  self_ : Blockchain
}.

Coercion self_ : Config >-> Blockchain.

(** The payloads waiting in the pool. *)
Definition pending (c : Config) : list string :=
  contents (heap c) (unconfirmed_transactions c).

(** The payloads of a block, as the store has them now. *)
Definition payloads (c : Config) (b : Block) : list string :=
  contents (heap c) (transactions b).

Definition is_valid_proof (block : Block) : bool :=
  startswith (hash block) (str_mul "0" difficulty)
  && String.eqb (hash block) (compute_hash block).

Definition add_block (block : Block) (c : Config) : bool * Config :=
  if match last (chain c) with
     | Some tip => negb (String.eqb (previous_hash block) (hash tip))
     | None => false
     end
  then (false, c)
  else if negb (is_valid_proof block)
  then (false, c)
  else (true, mkConfig (heap c)
                 (mkBlockchain (unconfirmed_transactions c) (chain c ++ [block]))).

(** The loop of [proof_of_work]; [fuel] bounds the iterations.  The block
    that comes back is the argument after its updates in place. *)
Fixpoint proof_of_work (fuel : nat) (block : Block) : option (string * Block) :=
  if startswith (hash block) (str_mul "0" difficulty)
  then Some (hash block, block)
  else
    match fuel with
    | O => None
    | S fuel' =>
        let block := set_nonce (nonce block + 1) block in
        let block := set_hash (compute_hash block) block in
        proof_of_work fuel' block
    end.

Definition add_new_transaction (transaction : string) (c : Config) : Config :=
  mkConfig (list_append (heap c) (unconfirmed_transactions c) transaction) c.

(** [Blockchain()]: the pool, the chain, then the genesis block over a list
    display of its own. *)
Definition create_genesis_block (now : Time) (c : Config) : Config :=
  let '(l, h) := alloc (heap c) [] in
  let genesis_block := Block_init h 0 l now "0" 0 in
  mkConfig h (mkBlockchain (unconfirmed_transactions c) (chain c ++ [genesis_block])).

Definition Blockchain_init (now : Time) (h : store) : Config :=
  let '(pool, h) := alloc h [] in
  create_genesis_block now (mkConfig h (mkBlockchain pool [])).

(** What [mine] returns: [False], or the block it built. *)
Inductive mined :=
| MinedFalse
| MinedBlock (b : Block).

Definition mine (fuel : nat) (now : Time) (c : Config)
  : option (outcome mined * Config) :=
  match pending c with
  | [] => Some (Return MinedFalse, c)
  | _ :: _ =>
      match last (chain c) with
      | None => Some (Raise IndexError, c)
      | Some last_block =>
          let new_block :=
            Block_init (heap c) (index last_block + 1)
                       (unconfirmed_transactions c) now (hash last_block) 0 in
          match proof_of_work fuel new_block with
          | None => None
          | Some (h, new_block) =>
              let new_block := set_hash h new_block in
              let '(_, c) := add_block new_block c in
              let '(pool, hp) := alloc (heap c) [] in
              Some (Return (MinedBlock new_block),
                    mkConfig hp (mkBlockchain pool (chain c)))
          end
      end
  end.

(** *** Vocabulary of the properties *)

(** A digest with at least [difficulty] characters ['0'] at its head. *)
Definition meets_target (digest : string) : Prop :=
  difficulty <= Z.of_nat (leading_zeros digest).

(** The payloads written one after the other. *)
Definition concatenation (payloads : list string) : string :=
  fold_right String.append "" payloads.

(** Every block but the first names the digest of the block before it. *)
Definition linked (l : list Block) : Prop :=
  forall (i : nat) (b b' : Block),
    l !! i = Some b -> l !! S i = Some b' -> previous_hash b' = hash b.

(** The engine states a caller can bring about: a fresh engine, then any
    sequence of [add_new_transaction], [mine] (when it comes back) and
    [add_block] calls, the last on any block at all.  A caller may also
    build list objects of its own. *)
Inductive reachable : Config -> Prop :=
| reach_init (now : Time) (h : store) :
    reachable (Blockchain_init now h)
| reach_add_new_transaction (c : Config) (transaction : string) :
    reachable c -> reachable (add_new_transaction transaction c)
| reach_mine (c c' : Config) (fuel : nat) (now : Time) (r : outcome mined) :
    reachable c -> mine fuel now c = Some (r, c') -> reachable c'
| reach_add_block (c : Config) (block : Block) :
    reachable c -> reachable (snd (add_block block c))
| reach_new_list (c : Config) (v : list string) :
    reachable c -> reachable (mkConfig (snd (alloc (heap c) v)) c).

(** No accepted block holds the list object of the pool. *)
Definition pool_unshared (c : Config) : Prop :=
  forall b : Block, b ∈ chain c -> transactions b <> unconfirmed_transactions c.

(** Every list the engine refers to is an object of the store. *)
Definition store_closed (c : Config) : Prop :=
  unconfirmed_transactions c ∈ dom (heap c)
  /\ forall b : Block, b ∈ chain c -> transactions b ∈ dom (heap c).

(** The block [mine] builds on the tip [last_block] before it searches. *)
Definition candidate (now : Time) (c : Config) (last_block : Block) : Block :=
  Block_init (heap c) (index last_block + 1) (unconfirmed_transactions c)
             now (hash last_block) 0.

(** The linkage check of [add_block]: the block names the digest of the tip,
    or there is no tip. *)
Definition links_to_tip (block : Block) (c : Config) : Prop :=
  match last (chain c) with
  | Some tip => previous_hash block = hash tip
  | None => True
  end.

(** The engine after [block] is appended to its chain. *)
Definition appended (block : Block) (c : Config) : Config :=
  mkConfig (heap c)
    (mkBlockchain (unconfirmed_transactions c) (chain c ++ [block])).

(** The block after one turn of the loop of [proof_of_work] that sets the
    nonce to [n]. *)
Definition sealed (n : Z) (block : Block) : Block :=
  let block := set_nonce n block in
  set_hash (compute_hash block) block.

(** What a call of [proof_of_work] on [block] is to achieve, whenever it
    returns: the digest [h] it returns and the block [block'] it leaves. *)
Definition proof_of_work_post (block : Block) (h : string) (block' : Block) : Prop :=
  nonce block <= nonce block'
  /\ meets_target (compute_hash block')
  /\ (forall n : Z, nonce block <= n < nonce block' ->
        ~ meets_target (compute_hash (set_nonce n block)))
  /\ (meets_target (hash block) -> nonce block' = nonce block)
  /\ h = hash block'
  /\ hash block' = compute_hash block'.

Definition proof_of_work_returns_post (block : Block) : Prop :=
  forall (fuel : nat) (h : string) (block' : Block),
    proof_of_work fuel block = Some (h, block') ->
    proof_of_work_post block h block'.

(** What [add_new_transaction] is to change and to leave alone. *)
Definition add_new_transaction_post (transaction : string) (c c' : Config) : Prop :=
  pending c' = pending c ++ [transaction]
  /\ unconfirmed_transactions c' = unconfirmed_transactions c
  /\ chain c' = chain c
  /\ forall b : Block, b ∈ chain c -> payloads c' b = payloads c b.

(** [block.transactions = l] *)
Definition set_transactions (l : loc) (b : Block) : Block :=
  mkBlock (index b) l (timestamp b) (previous_hash b) (nonce b)
          (transactions_hash b) (hash b).

(** [add_new_transaction] called on each payload in turn. *)
Definition add_new_transactions (payloads : list string) (c : Config) : Config :=
  fold_left (fun c transaction => add_new_transaction transaction c) payloads c.

(** [run c c']: some sequence of calls takes the engine from [c] to [c'].
    The calls are those of [reachable]. *)
Inductive run : Config -> Config -> Prop :=
| run_done (c : Config) :
    run c c
| run_add_new_transaction (c c' : Config) (transaction : string) :
    run c c' -> run c (add_new_transaction transaction c')
| run_mine (c c' c'' : Config) (fuel : nat) (now : Time) (r : outcome mined) :
    run c c' -> mine fuel now c' = Some (r, c'') -> run c c''
| run_add_block (c c' : Config) (block : Block) :
    run c c' -> run c (snd (add_block block c'))
| run_new_list (c c' : Config) (v : list string) :
    run c c' -> run c (mkConfig (snd (alloc (heap c') v)) c').

(** The engine states reached when every block comes from [mine]: a fresh
    engine, then [add_new_transaction] and [mine] calls, and list objects the
    caller builds for itself. *)
Inductive mined_only : Config -> Prop :=
| only_init (now : Time) (h : store) :
    mined_only (Blockchain_init now h)
| only_add_new_transaction (c : Config) (transaction : string) :
    mined_only c -> mined_only (add_new_transaction transaction c)
| only_mine (c c' : Config) (fuel : nat) (now : Time) (r : outcome mined) :
    mined_only c -> mine fuel now c = Some (r, c') -> mined_only c'
| only_new_list (c : Config) (v : list string) :
    mined_only c -> mined_only (mkConfig (snd (alloc (heap c) v)) c).

(** What an engine keeps true of its chain and of the store when its blocks
    all come from [mine]. *)
Definition mined_only_invariant (c : Config) : Prop :=
  store_closed c
  /\ pool_unshared c
  /\ forall (i : nat) (b : Block),
       chain c !! i = Some b ->
       index b = Z.of_nat i
       /\ transactions_hash b = compute_transactions_hash (heap c) b
       /\ hash b = compute_hash b.

(** A block as [create_genesis_block] makes it. *)
Definition is_genesis (g : Block) : Prop :=
  index g = 0
  /\ previous_hash g = "0"
  /\ nonce g = 0
  /\ transactions_hash g = sha256 ""
  /\ hash g = compute_hash g.

End Ledger.

(** ** The program as it runs: SHA-256 and four leading zeros *)

Definition hashlib : Hashlib := SHA256.hexdigest.

(** [difficulty = 4] *)
Definition Blockchain_attrs : ClassAttributes := 4.

(** *** Sample runs *)

(** [bc = Blockchain()], the clock reading 1700000000.0, nothing else in
    the store. *)
Definition engine0 : Config :=
  Blockchain_init (hl := hashlib) (Float "1700000000.0") ∅.

(** Its genesis block, [bc.chain[0]]. *)
Definition genesis0 : Block :=
  mkBlock 0 1%nat (Float "1700000000.0") "0" 0
    "e3b0c44298fc1c149afbf4c8996fb92427ae41e4649b934ca495991b7852b855"
    "173bd228e21da8ebba0920abf31dcb4870f0b62c364129b63c134469d58ebfc0".

(** [bc.add_new_transaction("a")] *)
Definition engine_a : Config := add_new_transaction "a" engine0.

(** [bc.add_new_transaction("A pays B 1 unit")], then
    [bc.add_new_transaction("B pays C 2 units")], on a fresh engine. *)
Definition engine_ab : Config :=
  add_new_transaction "B pays C 2 units"
    (add_new_transaction "A pays B 1 unit" engine0).

(** [Block(1, bc.unconfirmed_transactions, 1700000060.0, bc.chain[-1].hash,
    10749)] after [bc.add_new_transaction("a")]: a block built by a caller
    the way [mine] builds its own, over the list object of the pool, with a
    nonce that meets the target. *)
Definition pool_block : Block :=
  Block_init (hl := hashlib) (heap engine_a) 1 (unconfirmed_transactions engine_a)
    (Float "1700000060.0")
    "173bd228e21da8ebba0920abf31dcb4870f0b62c364129b63c134469d58ebfc0" 10749.

(** [bc.add_block(pool_block)] *)
Definition engine_shared : Config :=
  snd (add_block (hl := hashlib) (attrs := Blockchain_attrs) pool_block engine_a).

(** A block whose [hash] field was assigned after construction:
    [b = Block(1, ["a"], 1700000060.0, "0"); b.hash = "0000"]. *)
Definition stale_store : store := {[ 0%nat := ["a"] ]}.

Definition stale_block : Block :=
  set_hash "0000"
    (Block_init (hl := hashlib) stale_store 1 0%nat (Float "1700000060.0") "0" 0).

(** The block [mine] builds on [engine_ab] at clock reading 1700000060.0,
    before the search and after a search for one leading zero, which stops at
    nonce 13. *)
Definition candidate_ab : Block :=
  candidate (hl := hashlib) (Float "1700000060.0") engine_ab genesis0.

Definition mined_ab : Block := sealed (hl := hashlib) 13 candidate_ab.

(** [engine_ab] after that [mine], with [difficulty = 1]. *)
Definition engine_ab_mined : Config :=
  mkConfig (snd (alloc (heap engine_ab) []))
    (mkBlockchain (fst (alloc (heap engine_ab) [])) (chain engine_ab ++ [mined_ab])).

(** [bc.add_new_transaction("C pays A 3 units")] after that, and the block
    of a second [mine] at clock reading 1700000121.0, found at nonce 2. *)
Definition engine_c : Config :=
  add_new_transactions ["C pays A 3 units"] engine_ab_mined.




(** A store in which list 0 no longer holds what [pool_block] was built
    over. *)
Definition changed_store : store := {[ 0%nat := ["x"; "y"] ]}.

(** Two lists that split the same text differently. *)
Definition split_store : store := {[ 0%nat := ["ab"; "c"]; 1%nat := ["a"; "bc"] ]}.

(** * Properties *)

(** ** Strings *)

Lemma append_cons (a : ascii) (s t : string) :
  (String a s ++ t)%string = String a (s ++ t)%string.
Proof. reflexivity. Qed.

Lemma append_empty_r (s : string) : (s ++ "")%string = s.
Proof.
  induction s as [|a s IH]; [reflexivity|].
  now rewrite append_cons, IH.
Qed.

Lemma join_empty_cons (x : string) (xs : list string) :
  join "" (x :: xs) = (x ++ join "" xs)%string.
Proof.
  unfold join. destruct xs as [|y ys]; simpl.
  - now rewrite append_empty_r.
  - reflexivity.
Qed.

(** Joining on the empty separator writes the parts one after the other. *)
Lemma join_empty (parts : list string) :
  join "" parts = fold_right String.append "" parts.
Proof.
  induction parts as [|x xs IH]; [reflexivity|].
  rewrite join_empty_cons, IH. reflexivity.
Qed.

Lemma length_append (s t : string) :
  String.length (s ++ t)%string = (String.length s + String.length t)%nat.
Proof.
  induction s as [|a s IH]; [reflexivity|].
  rewrite append_cons. cbn [String.length]. now rewrite IH.
Qed.

Lemma prefix_cons (a b : ascii) (p s : string) :
  String.prefix (String a p) (String b s)
  = if ascii_dec a b then String.prefix p s else false.
Proof. reflexivity. Qed.

Lemma leading_zeros_cons (a : ascii) (s : string) :
  leading_zeros (String a s)
  = if Ascii.eqb a "0" then S (leading_zeros s) else O.
Proof. destruct a as [[] [] [] [] [] [] [] []]; reflexivity. Qed.

Lemma prefix_zeros (n : nat) (s : string) :
  String.prefix (join "" (repeat "0" n)) s = true <-> (n <= leading_zeros s)%nat.
Proof.
  revert s. induction n as [|n IH]; intros s.
  - destruct s; simpl; split; intros; auto with arith.
  - cbn [repeat]. rewrite join_empty_cons.
    destruct s as [|a s].
    + simpl. split; [discriminate | lia].
    + rewrite leading_zeros_cons.
      change ("0" ++ join "" (repeat "0" n))%string
        with (String "0" (join "" (repeat "0" n))).
      rewrite prefix_cons.
      destruct (ascii_dec "0" a) as [<-|Hne]; cbv iota.
      * rewrite Ascii.eqb_refl, IH. lia.
      * destruct (Ascii.eqb a "0") eqn:E.
        -- apply Ascii.eqb_eq in E. congruence.
        -- split; [discriminate | lia].
Qed.

Section Properties.

Context {Time : Type} {Time_str : Str Time}.
Context {hl : Hashlib} {attrs : ClassAttributes}.

Implicit Types (b block : @Block Time) (c : @Config Time).

(** The test of the loop and of the admission gate, in the words of the
    target. *)
Lemma startswith_zeros (digest : string) :
  startswith digest (str_mul "0" difficulty) = true <-> meets_target digest.
Proof.
  unfold startswith, str_mul, meets_target.
  rewrite prefix_zeros. lia.
Qed.

Lemma startswith_zeros_false (digest : string) :
  startswith digest (str_mul "0" difficulty) = false <-> ~ meets_target digest.
Proof.
  rewrite <- startswith_zeros.
  destruct (startswith digest (str_mul "0" difficulty)); split; congruence.
Qed.

(** ** class Block *)

(** C7: [compute_hash] is the digest of the decimal index, the printed
    timestamp, the previous digest, the decimal nonce and the transactions
    digest, written one after the other with nothing in between. *)
Theorem compute_hash_spec b :
  compute_hash b
  = sha256 (str (index b) ++ str (timestamp b) ++ previous_hash b
            ++ str (nonce b) ++ transactions_hash b)%string.
Proof.
  unfold compute_hash. rewrite join_empty. cbn [fold_right].
  now rewrite append_empty_r.
Qed.

(** Nothing stands between the fields: the hashed text is as long as the
    fields together. *)
Lemma block_string_length b :
  String.length
    (join "" [str (index b); str (timestamp b); previous_hash b;
              str (nonce b); transactions_hash b])
  = (String.length (str (index b)) + String.length (str (timestamp b))
     + String.length (previous_hash b) + String.length (str (nonce b))
     + String.length (transactions_hash b))%nat.
Proof.
  rewrite join_empty. cbn [fold_right]. rewrite append_empty_r.
  rewrite !length_append. lia.
Qed.

(** C8: [compute_transactions_hash] is the digest of the payloads written
    one after the other, so two blocks built over lists with the same
    concatenation carry the same [transactions_hash]. *)
Theorem compute_transactions_hash_spec
    (h1 h2 : store) b (i1 i2 : Z) (l1 l2 : loc) (t1 t2 : Time) (p1 p2 : string) (n1 n2 : Z) :
  compute_transactions_hash h1 b
  = sha256 (concatenation (contents h1 (transactions b)))
  /\ (concatenation (contents h1 l1) = concatenation (contents h2 l2) ->
      transactions_hash (Block_init h1 i1 l1 t1 p1 n1)
      = transactions_hash (Block_init h2 i2 l2 t2 p2 n2)).
Proof.
  unfold compute_transactions_hash, concatenation. split.
  - now rewrite join_empty.
  - intros Heq. cbn. unfold compute_transactions_hash. cbn.
    now rewrite !join_empty, Heq.
Qed.

(** ** The admission gate *)

Lemma is_valid_proof_iff b :
  is_valid_proof b = true
  <-> meets_target (hash b) /\ hash b = compute_hash b.
Proof.
  unfold is_valid_proof.
  rewrite andb_true_iff, startswith_zeros, String.eqb_eq. reflexivity.
Qed.

(** ** The search *)

Lemma proof_of_work_unfold (fuel : nat) block :
  proof_of_work fuel block
  = if startswith (hash block) (str_mul "0" difficulty)
    then Some (hash block, block)
    else match fuel with
         | O => None
         | S fuel' => proof_of_work fuel' (sealed (nonce block + 1) block)
         end.
Proof. destruct fuel; reflexivity. Qed.

Lemma sealed_self b : hash b = compute_hash b -> sealed (nonce b) b = b.
Proof.
  destruct b as [i t ts p n th hs]. unfold sealed, compute_hash. cbn.
  intros ->. reflexivity.
Qed.

Lemma set_hash_self b : set_hash (hash b) b = b.
Proof. destruct b; reflexivity. Qed.

Lemma sealed_consistent (n : Z) b : hash (sealed n b) = compute_hash (sealed n b).
Proof. reflexivity. Qed.

Lemma sealed_sealed (m n : Z) b : sealed m (sealed n b) = sealed m b.
Proof. reflexivity. Qed.

Lemma nonce_sealed (n : Z) b : nonce (sealed n b) = n.
Proof. reflexivity. Qed.

Lemma compute_hash_sealed (m n : Z) b :
  compute_hash (set_nonce m (sealed n b)) = compute_hash (set_nonce m b).
Proof. reflexivity. Qed.



(** The loop stops at once on a stored digest that meets the target, and
    otherwise at the first nonce after the starting one whose digest does. *)
Lemma proof_of_work_search (fuel : nat) block h block' :
  proof_of_work fuel block = Some (h, block') ->
  (meets_target (hash block) /\ block' = block /\ h = hash block)
  \/ (~ meets_target (hash block)
      /\ exists k : Z,
          1 <= k
          /\ block' = sealed (nonce block + k) block
          /\ h = hash block'
          /\ meets_target (hash block')
          /\ forall j : Z, 1 <= j < k ->
               ~ meets_target (compute_hash (set_nonce (nonce block + j) block))).
Proof.
  revert block. induction fuel as [|fuel IH]; intros block;
    rewrite proof_of_work_unfold;
    destruct (startswith (hash block) _) eqn:Hstart;
    try discriminate.
  1, 2: intros [= <- <-]; left; now rewrite <- startswith_zeros.
  intros Hrun. right. apply startswith_zeros_false in Hstart.
  split; [assumption|].
  destruct (IH _ Hrun) as [(Hm & -> & ->) | (Hn & k & Hk & -> & -> & Hm & Hmin)].
  - exists 1. repeat split; try lia; assumption.
  - exists (k + 1). repeat split; try lia.
    + rewrite sealed_sealed, nonce_sealed. f_equal. lia.
    + assumption.
    + intros j Hj. destruct (Z.eq_dec j 1) as [-> | Hj1].
      * exact Hn.
      * specialize (Hmin (j - 1) ltac:(lia)).
        rewrite compute_hash_sealed, nonce_sealed in Hmin.
        replace (nonce block + 1 + (j - 1)) with (nonce block + j) in Hmin by lia.
        exact Hmin.
Qed.


Lemma proof_of_work_post_holds b :
  hash b = compute_hash b -> proof_of_work_returns_post b.
Proof.
  intros Hb fuel h b' Hrun.
  destruct (proof_of_work_search _ _ _ _ Hrun)
    as [(Hm & -> & ->) | (Hn & k & Hk & -> & -> & Hm & Hmin)];
    unfold proof_of_work_post.
  - repeat split; try lia; try assumption. now rewrite <- Hb.
  - rewrite nonce_sealed. repeat split.
    + lia.
    + exact Hm.
    + intros n Hn'. destruct (Z.eq_dec n (nonce b)) as [-> | Hne].
      * replace (set_nonce (nonce b) b) with b by (destruct b; reflexivity).
        now rewrite <- Hb.
      * specialize (Hmin (n - nonce b) ltac:(lia)).
        replace (nonce b + (n - nonce b)) with n in Hmin by lia. exact Hmin.
    + intros Hm'. contradiction.
Qed.

Lemma add_block_cases block c :
  (~ links_to_tip block c -> add_block block c = (false, c))
  /\ (links_to_tip block c -> is_valid_proof block = false ->
      add_block block c = (false, c))
  /\ (links_to_tip block c -> is_valid_proof block = true ->
      add_block block c = (true, appended block c)).
Proof.
  unfold add_block, links_to_tip, appended.
  destruct (last (chain c)) as [tip|].
  - destruct (String.eqb (previous_hash block) (hash tip)) eqn:E.
    + apply String.eqb_eq in E. cbn [negb].
      repeat split; try contradiction; intros _ ->; reflexivity.
    + apply String.eqb_neq in E. cbn [negb].
      repeat split; try contradiction; reflexivity.
  - repeat split; try (intros Hn; now destruct Hn); intros _ ->; reflexivity.
Qed.

(** Whatever the block, the chain afterwards is the chain before or the
    chain before with the block at its end. *)
Lemma add_block_chain block c :
  (add_block block c = (false, c))
  \/ (add_block block c = (true, appended block c) /\ links_to_tip block c).
Proof.
  destruct (add_block_cases block c) as (H1 & H2 & H3).
  destruct (is_valid_proof block) eqn:Hv.
  - unfold links_to_tip in *. destruct (last (chain c)) as [tip|]; [|auto].
    destruct (String.eqb (previous_hash block) (hash tip)) eqn:E.
    + apply String.eqb_eq in E. auto.
    + apply String.eqb_neq in E. auto.
  - left. unfold add_block. rewrite Hv. cbn [negb].
    now destruct (match last (chain c) with Some _ => _ | None => _ end).
Qed.

(** ** Mining *)

Lemma candidate_consistent now c last_block :
  hash (candidate now c last_block) = compute_hash (candidate now c last_block).
Proof. reflexivity. Qed.

(** A search that starts from a block as [Block] leaves it ends on a block
    that passes [is_valid_proof] and differs from the first in nonce and
    digest only. *)
Lemma proof_of_work_valid (fuel : nat) b (h : string) b' :
  hash b = compute_hash b ->
  proof_of_work fuel b = Some (h, b') ->
  h = hash b' /\ is_valid_proof b' = true /\ b' = sealed (nonce b') b.
Proof.
  intros Hb Hrun.
  destruct (proof_of_work_search _ _ _ _ Hrun)
    as [(Hm & -> & ->) | (Hn & k & Hk & -> & -> & Hm & Hmin)].
  - repeat split.
    + apply is_valid_proof_iff. auto.
    + now rewrite sealed_self.
  - repeat split. apply is_valid_proof_iff. auto.
Qed.

(** The whole of [mine] once the search has come back: the block found is
    admitted, always, and the pool becomes a new empty list. *)
Lemma mine_found (fuel : nat) now c last_block (h : string) b' :
  pending c <> [] ->
  last (chain c) = Some last_block ->
  proof_of_work fuel (candidate now c last_block) = Some (h, b') ->
  mine fuel now c
  = Some (Return (MinedBlock b'),
          mkConfig (snd (alloc (heap c) []))
            (mkBlockchain (fst (alloc (heap c) [])) (chain c ++ [b']))).
Proof.
  intros Hp Hl Hrun.
  destruct (proof_of_work_valid _ _ _ _ (candidate_consistent now c last_block) Hrun)
    as (-> & Hv & Hb').
  unfold mine. destruct (pending c) as [|tx txs]; [congruence|].
  rewrite Hl. fold (candidate now c last_block). rewrite Hrun.
  rewrite set_hash_self.
  destruct (add_block_cases b' c) as (_ & _ & Hadd).
  rewrite Hadd; [reflexivity | | exact Hv].
  unfold links_to_tip. rewrite Hl, Hb'. reflexivity.
Qed.

Lemma mine_on_empty_pool (fuel : nat) now c :
  pending c = [] -> mine fuel now c = Some (Return MinedFalse, c).
Proof. intros Hp. unfold mine. now rewrite Hp. Qed.

(** The three ways [mine] can come back. *)
Lemma mine_cases (fuel : nat) now c (r : outcome mined) c' :
  mine fuel now c = Some (r, c') ->
  (pending c = [] /\ r = Return MinedFalse /\ c' = c)
  \/ (pending c <> [] /\ last (chain c) = None /\ r = Raise IndexError /\ c' = c)
  \/ (exists last_block h b',
        pending c <> []
        /\ last (chain c) = Some last_block
        /\ proof_of_work fuel (candidate now c last_block) = Some (h, b')
        /\ r = Return (MinedBlock b')
        /\ c' = mkConfig (snd (alloc (heap c) []))
                  (mkBlockchain (fst (alloc (heap c) [])) (chain c ++ [b']))).
Proof.
  intros Hmine.
  destruct (decide (pending c = [])) as [Hp | Hne].
  - left. rewrite (mine_on_empty_pool _ _ _ Hp) in Hmine.
    inversion Hmine; subst; auto.
  - right. destruct (last (chain c)) as [last_block|] eqn:Hl.
    + right.
      destruct (proof_of_work fuel (candidate now c last_block)) as [[h b']|] eqn:Hrun.
      * rewrite (mine_found _ _ _ _ _ _ Hne Hl Hrun) in Hmine.
        inversion Hmine; subst. exists last_block, h, b'. auto.
      * unfold mine in Hmine. destruct (pending c); [congruence|].
        rewrite Hl in Hmine.
        fold (candidate now c last_block) in Hmine. now rewrite Hrun in Hmine.
    + left. unfold mine in Hmine. destruct (pending c); [congruence|].
      rewrite Hl in Hmine. inversion Hmine; subst. auto.
Qed.

Lemma contents_alloc_old (st : store) (v : list string) (l : loc) :
  l ∈ dom st -> contents (snd (alloc st v)) l = contents st l.
Proof.
  intros Hl. unfold alloc, contents. cbn [snd].
  rewrite lookup_insert_ne; [reflexivity|].
  intros <-. exact (is_fresh (dom st) Hl).
Qed.

Lemma contents_alloc_new (st : store) (v : list string) :
  contents (snd (alloc st v)) (fst (alloc st v)) = v.
Proof. unfold alloc, contents. cbn [fst snd]. now rewrite lookup_insert_eq. Qed.

Lemma contents_in_dom (st : store) (l : loc) : contents st l <> [] -> l ∈ dom st.
Proof.
  unfold contents. intros Hne. apply elem_of_dom.
  destruct (st !! l); [eauto | contradiction].
Qed.




(** ** The chain *)

Lemma linked_snoc (l : list Block) b :
  linked l ->
  (forall tip, last l = Some tip -> previous_hash b = hash tip) ->
  linked (l ++ [b]).
Proof.
  intros Hl Htip i b1 b2 H1 H2.
  pose proof (lookup_lt_Some _ _ _ H2) as Hlen.
  rewrite length_app in Hlen. cbn [length] in Hlen.
  destruct (decide (S i < length l)%nat) as [Hin | Hout].
  - rewrite lookup_app_l in H1 by lia. rewrite lookup_app_l in H2 by lia.
    exact (Hl i b1 b2 H1 H2).
  - assert (Hi : S i = length l) by lia.
    rewrite lookup_app_l in H1 by lia.
    rewrite lookup_app_r in H2 by lia.
    rewrite Hi, Nat.sub_diag in H2. cbn in H2. inversion H2; subst b2.
    apply Htip. rewrite last_lookup, <- Hi. exact H1.
Qed.

Lemma add_block_linked block c :
  linked (chain c) -> linked (chain (snd (add_block block c))).
Proof.
  intros Hl. destruct (add_block_chain block c) as [-> | [-> Hlinks]]; [exact Hl|].
  cbn [snd appended chain self_]. apply linked_snoc; [exact Hl|].
  intros tip Htip. unfold links_to_tip in Hlinks. now rewrite Htip in Hlinks.
Qed.

Lemma mine_linked (fuel : nat) now c (r : outcome mined) c' :
  mine fuel now c = Some (r, c') -> linked (chain c) -> linked (chain c').
Proof.
  intros Hmine Hl.
  destruct (mine_cases _ _ _ _ _ Hmine)
    as [(_ & _ & ->) | [(_ & _ & _ & ->) | (lb & h & b' & _ & Hlast & Hrun & _ & ->)]];
    try exact Hl.
  cbn [chain self_]. apply linked_snoc; [exact Hl|].
  intros tip Htip.
  destruct (proof_of_work_valid _ _ _ _ (candidate_consistent now c lb) Hrun)
    as (_ & _ & ->).
  cbn. congruence.
Qed.

Lemma linked_of_reachable c : reachable c -> linked (chain c).
Proof.
  induction 1 as [now st | c tx _ IH | c c' fuel now r _ IH Hmine
                  | c block _ IH | c v _ IH].
  - intros i b b' _ Hb'. unfold Blockchain_init, create_genesis_block in Hb'.
    cbn in Hb'. destruct i; discriminate.
  - exact IH.
  - exact (mine_linked _ _ _ _ _ Hmine IH).
  - exact (add_block_linked _ _ IH).
  - exact IH.
Qed.


(** ** The pool *)

Lemma add_new_transaction_post_holds (transaction : string) c :
  pool_unshared c ->
  add_new_transaction_post transaction c (add_new_transaction transaction c).
Proof.
  intros Hpool. unfold add_new_transaction_post, add_new_transaction, pending,
    payloads, list_append, contents.
  cbn [heap self_ unconfirmed_transactions chain].
  repeat split.
  - now rewrite lookup_insert_eq.
  - intros b Hb. rewrite lookup_insert_ne; [reflexivity|].
    intros Heq. exact (Hpool b Hb (eq_sym Heq)).
Qed.

Lemma dom_insert_new (st : store) (l : loc) (v : list string) :
  l ∈ dom (<[l := v]> st).
Proof. apply elem_of_dom. rewrite lookup_insert_eq. eauto. Qed.

Lemma dom_insert_old (st : store) (l x : loc) (v : list string) :
  x ∈ dom st -> x ∈ dom (<[l := v]> st).
Proof.
  intros Hx. destruct (decide (l = x)) as [-> | Hne]; [apply dom_insert_new|].
  apply elem_of_dom. rewrite lookup_insert_ne by exact Hne. now apply elem_of_dom.
Qed.

(** The engine keeps the pool to itself.  A fresh engine refers to objects
    of the store only and shares the pool with no block. *)
Lemma Blockchain_init_owns now (st : store) :
  store_closed (Blockchain_init now st) /\ pool_unshared (Blockchain_init now st).
Proof.
  unfold store_closed, pool_unshared, Blockchain_init, create_genesis_block, alloc.
  cbn [heap self_ unconfirmed_transactions chain fst snd].
  set (pool := fresh (dom st)).
  set (st1 := <[pool := []]> st).
  set (l := fresh (dom st1)).
  assert (Hpool : pool ∈ dom st1) by apply dom_insert_new.
  assert (Hl : l <> pool).
  { intros Heq. apply (is_fresh (dom st1)). fold l. now rewrite Heq. }
  repeat split.
  - apply dom_insert_old, Hpool.
  - intros b Hb. apply list_elem_of_singleton in Hb as ->. apply dom_insert_new.
  - intros b Hb. apply list_elem_of_singleton in Hb as ->. exact Hl.
Qed.

Lemma add_new_transaction_owns (transaction : string) c :
  store_closed c /\ pool_unshared c ->
  store_closed (add_new_transaction transaction c)
  /\ pool_unshared (add_new_transaction transaction c).
Proof.
  intros [[Hp Hb] Hu]. unfold store_closed, pool_unshared, add_new_transaction,
    list_append in *.
  cbn [heap self_ unconfirmed_transactions chain].
  repeat split.
  - apply dom_insert_old, Hp.
  - intros b Hin. apply dom_insert_old, Hb, Hin.
  - exact Hu.
Qed.

(** [mine] hands the pool object to the block it appends and takes a new
    object for the pool: afterwards no block holds the pool, whether or not
    one did before. *)
Lemma mine_owns (fuel : nat) now c (r : outcome mined) c' :
  mine fuel now c = Some (r, c') ->
  store_closed c /\ pool_unshared c ->
  store_closed c' /\ pool_unshared c'.
Proof.
  intros Hmine [[Hp Hb] Hu].
  destruct (mine_cases _ _ _ _ _ Hmine)
    as [(_ & _ & ->) | [(_ & _ & _ & ->) | (lb & h & b' & _ & _ & Hrun & _ & ->)]];
    try (split; [split|]; assumption).
  destruct (proof_of_work_valid _ _ _ _ (candidate_consistent now c lb) Hrun)
    as (_ & _ & Hb').
  assert (Ht : transactions b' = unconfirmed_transactions c) by now rewrite Hb'.
  unfold store_closed, pool_unshared, alloc.
  cbn [heap self_ unconfirmed_transactions chain fst snd].
  pose proof (is_fresh (dom (heap c))) as Hfresh.
  assert (Hall : forall b, b ∈ chain c ++ [b'] -> transactions b ∈ dom (heap c)).
  { intros b Hin. apply elem_of_app in Hin as [Hin | Hin]; [now apply Hb|].
    apply list_elem_of_singleton in Hin as ->. now rewrite Ht. }
  repeat split.
  - apply dom_insert_new.
  - intros b Hin. apply dom_insert_old, Hall, Hin.
  - intros b Hin Heq. apply Hfresh. rewrite <- Heq. now apply Hall.
Qed.

(** [add_block] keeps the pool private as long as the block offered does
    not hold the pool object itself. *)
Lemma add_block_owns block c :
  transactions block ∈ dom (heap c) ->
  transactions block <> unconfirmed_transactions c ->
  store_closed c /\ pool_unshared c ->
  store_closed (snd (add_block block c)) /\ pool_unshared (snd (add_block block c)).
Proof.
  intros Hdom Hne [[Hp Hb] Hu].
  destruct (add_block_chain block c) as [-> | [-> _]];
    [split; [split|]; assumption|].
  unfold store_closed, pool_unshared, appended.
  cbn [snd heap self_ unconfirmed_transactions chain].
  repeat split; [assumption| |];
    intros b Hin; apply elem_of_app in Hin as [Hin | Hin]; auto;
    apply list_elem_of_singleton in Hin as ->; assumption.
Qed.

(** ** The claims *)

(** C2: in every engine state reached from a fresh engine by
    [add_new_transaction], [mine] and [add_block], each block at a position
    [i > 0] of the chain names the digest of the block at [i - 1]. *)
Theorem reachable_linked c (i : nat) (prev cur : Block) :
  reachable c ->
  (0 < i)%nat ->
  chain c !! (i - 1)%nat = Some prev ->
  chain c !! i = Some cur ->
  previous_hash cur = hash prev.
Proof.
  intros Hreach Hi Hprev Hcur. destruct i as [|i]; [lia|].
  replace (S i - 1)%nat with i in Hprev by lia.
  exact (linked_of_reachable c Hreach i prev cur Hprev Hcur).
Qed.

(** C3: [add_block] checks the link to the tip first, unless the chain is
    empty, then [is_valid_proof].  A block that fails the first check is
    refused whatever its proof; one that fails the second is refused; in both
    cases the answer is [False] and nothing changes.  A block that passes
    both is appended and the answer is [True].  The function is total: no
    exception is among its outcomes. *)
Theorem add_block_spec block c :
  (~ links_to_tip block c -> add_block block c = (false, c))
  /\ (links_to_tip block c -> is_valid_proof block = false ->
      add_block block c = (false, c))
  /\ (links_to_tip block c -> is_valid_proof block = true ->
      add_block block c = (true, appended block c)).
Proof. exact (add_block_cases block c). Qed.

(** C4: [is_valid_proof] holds exactly when the stored digest has at least
    [difficulty] leading zeros and equals [compute_hash] of the block as it
    is now; it is false as soon as one of the two fails. *)
Theorem is_valid_proof_spec b :
  (is_valid_proof b = true
   <-> meets_target (hash b) /\ hash b = compute_hash b)
  /\ (~ meets_target (hash b) -> is_valid_proof b = false)
  /\ (hash b <> compute_hash b -> is_valid_proof b = false).
Proof.
  pose proof (is_valid_proof_iff b) as Hiff.
  split; [exact Hiff|].
  split; intros Hn; destruct (is_valid_proof b); trivial;
    exfalso; apply Hn; now apply Hiff.
Qed.

(** C6: on an empty pool [mine] answers [False] at once, whatever the number
    of iterations allowed, and the engine and the store are what they
    were. *)
Theorem mine_empty_pool (fuel : nat) now c :
  pending c = [] -> mine fuel now c = Some (Return MinedFalse, c).
Proof. exact (mine_on_empty_pool fuel now c). Qed.

(** C9, amended: when [proof_of_work] is entered on a block whose stored
    digest is the digest of its fields, as [Block] leaves it, and returns, the
    nonce is the least one from the starting nonce on whose digest has at
    least [difficulty] leading zeros, a block that meets the target on entry
    keeps its nonce, and the value returned is the stored digest and the
    digest of the fields. *)
Theorem proof_of_work_spec b :
  hash b = compute_hash b -> proof_of_work_returns_post b.
Proof. exact (proof_of_work_post_holds b). Qed.

(** C10, amended: on an engine none of whose accepted blocks holds the list
    object of the pool, [add_new_transaction] puts the payload at the end of
    the pool, keeps the pool object and the chain, and leaves the payloads of
    every accepted block as they were. *)
Theorem add_new_transaction_spec (transaction : string) c :
  pool_unshared c ->
  add_new_transaction_post transaction c (add_new_transaction transaction c).
Proof. exact (add_new_transaction_post_holds transaction c). Qed.

End Properties.

(** * Further behaviour of the program *)

Section Behaviour.

Context {Time : Type} {Time_str : Str Time}.
Context {hl : Hashlib} {attrs : ClassAttributes}.

Implicit Types (b block : @Block Time) (c : @Config Time).

(** ** The constructors *)

(** X1: a block as [Block] leaves it holds its five arguments and the digests
    of its own fields, [transactions_hash] over the payloads its list has at
    that moment and [hash] over the five hashed fields; so it passes
    [is_valid_proof] exactly when its digest meets the target. *)
Theorem Block_init_consistent (st : store) (i : Z) (l : loc) (t : Time)
    (p : string) (n : Z) :
  let b := Block_init st i l t p n in
  (index b, transactions b, timestamp b, previous_hash b, nonce b) = (i, l, t, p, n)
  /\ transactions_hash b = sha256 (concatenation (contents st l))
  /\ transactions_hash b = compute_transactions_hash st b
  /\ hash b = compute_hash b
  /\ (is_valid_proof b = true <-> meets_target (hash b)).
Proof.
  cbn zeta. repeat split.
  - cbn. unfold compute_transactions_hash. cbn. now rewrite join_empty.
  - intros Hv. now apply is_valid_proof_iff in Hv.
  - intros Hm. apply is_valid_proof_iff. split; [exact Hm | reflexivity].
Qed.

Lemma Blockchain_init_shape now (st : store) :
  let pool := fresh (dom st) in
  let st1 := <[pool := []]> st in
  let l := fresh (dom st1) in
  Blockchain_init now st
  = mkConfig (<[l := []]> st1)
      (mkBlockchain pool [Block_init (<[l := []]> st1) 0 l now "0" 0]).
Proof. reflexivity. Qed.

(** X2: a new engine has one block, the genesis block: index 0, previous
    digest "0", nonce 0, the clock reading, no payload, the digests of its
    fields.  Its pool is empty.  The pool and the list of the genesis block
    are two new list objects, and every list that was there before has the
    payloads it had. *)
Theorem Blockchain_init_fresh now (st : store) :
  let c := Blockchain_init now st in
  exists g : Block,
    chain c = [g]
    /\ is_genesis g
    /\ timestamp g = now
    /\ payloads c g = []
    /\ pending c = []
    /\ transactions g <> unconfirmed_transactions c
    /\ (unconfirmed_transactions c ∉ dom st)
    /\ (transactions g ∉ dom st)
    /\ forall l : loc, l ∈ dom st -> contents (heap c) l = contents st l.
Proof.
  cbn zeta. rewrite Blockchain_init_shape.
  set (pool := fresh (dom st)).
  set (st1 := <[pool := []]> st).
  set (l := fresh (dom st1)).
  assert (Hpool : pool ∉ dom st) by apply is_fresh.
  assert (Hl1 : l ∉ dom st1) by apply is_fresh.
  assert (Hl : l ∉ dom st).
  { intros Hin. apply Hl1. now apply dom_insert_old. }
  assert (Hne : l <> pool).
  { intros Heq. apply Hl1. rewrite Heq. apply dom_insert_new. }
  eexists. split; [reflexivity|].
  unfold is_genesis, payloads, pending, contents.
  cbn [heap self_ unconfirmed_transactions chain Block_init set_hash
       set_transactions_hash index transactions timestamp previous_hash nonce
       transactions_hash hash].
  repeat split; try assumption.
  - unfold compute_transactions_hash, contents. cbn [transactions].
    now rewrite lookup_insert_eq.
  - now rewrite lookup_insert_eq.
  - rewrite lookup_insert_ne by exact Hne. subst st1. now rewrite lookup_insert_eq.
  - intros x Hx.
    rewrite lookup_insert_ne by (intros ->; contradiction).
    subst st1. rewrite lookup_insert_ne by (intros ->; contradiction).
    reflexivity.
Qed.

(** ** The search *)

Lemma proof_of_work_at_once (fuel : nat) b :
  meets_target (hash b) -> proof_of_work fuel b = Some (hash b, b).
Proof.
  intros Hm. rewrite proof_of_work_unfold.
  apply startswith_zeros in Hm. now rewrite Hm.
Qed.

(** X3: [proof_of_work] writes to the nonce and the digest only: index,
    list of payloads, timestamp, previous digest and transactions digest of
    the block are those on entry, whatever the block, and the nonce has not
    gone down.  The value returned is the digest stored, and it meets the
    target. *)
Theorem proof_of_work_frame (fuel : nat) b (h : string) b' :
  proof_of_work fuel b = Some (h, b') ->
  index b' = index b
  /\ transactions b' = transactions b
  /\ timestamp b' = timestamp b
  /\ previous_hash b' = previous_hash b
  /\ transactions_hash b' = transactions_hash b
  /\ nonce b <= nonce b'
  /\ h = hash b'
  /\ meets_target (hash b').
Proof.
  intros Hrun.
  destruct (proof_of_work_search _ _ _ _ Hrun)
    as [(Hm & -> & ->) | (_ & k & Hk & -> & -> & Hm & _)].
  - repeat split; try reflexivity; try lia; exact Hm.
  - repeat split; try reflexivity; try (rewrite nonce_sealed; lia); exact Hm.
Qed.

(** X4: a second search on a block that a search has left is over at once:
    it returns the same digest and leaves the block as it is, even with no
    iteration to spend. *)
Theorem proof_of_work_idempotent (fuel fuel' : nat) b (h : string) b' :
  proof_of_work fuel b = Some (h, b') ->
  proof_of_work fuel' b' = Some (h, b').
Proof.
  intros Hrun.
  destruct (proof_of_work_search _ _ _ _ Hrun)
    as [(Hm & -> & ->) | (_ & k & Hk & -> & -> & Hm & _)];
    now apply proof_of_work_at_once.
Qed.

Lemma proof_of_work_none_iff (fuel : nat) b :
  proof_of_work fuel b = None
  <-> ~ meets_target (hash b)
      /\ forall j : Z, 1 <= j <= Z.of_nat fuel ->
           ~ meets_target (compute_hash (set_nonce (nonce b + j) b)).
Proof.
  revert b. induction fuel as [|fuel IH]; intros b;
    rewrite proof_of_work_unfold;
    destruct (startswith (hash b) _) eqn:Hstart.
  - apply startswith_zeros in Hstart. split; [discriminate | tauto].
  - apply startswith_zeros_false in Hstart.
    split; [|reflexivity]. intros _. split; [exact Hstart | intros j Hj; lia].
  - apply startswith_zeros in Hstart. split; [discriminate | tauto].
  - apply startswith_zeros_false in Hstart. rewrite IH.
    change (hash (sealed (nonce b + 1) b))
      with (compute_hash (set_nonce (nonce b + 1) b)).
    rewrite nonce_sealed. split.
    + intros [Hfirst Hrest]. split; [exact Hstart|]. intros j Hj.
      destruct (Z.eq_dec j 1) as [-> | Hne]; [exact Hfirst|].
      specialize (Hrest (j - 1) ltac:(lia)).
      rewrite compute_hash_sealed in Hrest.
      now replace (nonce b + 1 + (j - 1)) with (nonce b + j) in Hrest by lia.
    + intros [_ Hall]. split; [apply Hall; lia|]. intros j Hj.
      rewrite compute_hash_sealed.
      replace (nonce b + 1 + j) with (nonce b + (j + 1)) by lia.
      apply Hall. lia.
Qed.

(** X5: the search is still running after [fuel] turns of the loop exactly
    when the stored digest misses the target and so does the digest of each
    of the [fuel] nonces that follow the starting one.  When every later
    nonce misses, the loop never ends. *)
Theorem proof_of_work_exhausted (fuel : nat) b :
  (proof_of_work fuel b = None
   <-> ~ meets_target (hash b)
       /\ forall j : Z, 1 <= j <= Z.of_nat fuel ->
            ~ meets_target (compute_hash (set_nonce (nonce b + j) b)))
  /\ (~ meets_target (hash b) ->
      (forall j : Z, 1 <= j ->
         ~ meets_target (compute_hash (set_nonce (nonce b + j) b))) ->
      forall fuel' : nat, proof_of_work fuel' b = None).
Proof.
  split; [apply proof_of_work_none_iff|].
  intros Hstored Hlater fuel'. apply proof_of_work_none_iff.
  split; [exact Hstored|]. intros j Hj. apply Hlater. lia.
Qed.

(** X6: when [difficulty] is zero or negative the prefix asked for is empty:
    the search returns at once on every block without touching it, and
    [is_valid_proof] is the comparison of the stored digest with
    [compute_hash] alone. *)
Theorem difficulty_not_positive (fuel : nat) b :
  difficulty <= 0 ->
  proof_of_work fuel b = Some (hash b, b)
  /\ is_valid_proof b = String.eqb (hash b) (compute_hash b).
Proof.
  intros Hd.
  assert (Hm : meets_target (hash b)) by (unfold meets_target; lia).
  split; [now apply proof_of_work_at_once|].
  unfold is_valid_proof. apply startswith_zeros in Hm. now rewrite Hm.
Qed.

(** ** The admission gate and the chain *)

Lemma add_block_result block c :
  add_block block c = (false, c)
  \/ (add_block block c = (true, appended block c)
      /\ links_to_tip block c /\ is_valid_proof block = true).
Proof.
  destruct (add_block_chain block c) as [Hrej | [Hacc Hlinks]]; [now left|].
  destruct (is_valid_proof block) eqn:Hv; [right; auto|].
  destruct (add_block_cases block c) as (_ & Hbad & _).
  rewrite (Hbad Hlinks Hv) in Hacc. discriminate.
Qed.

(** What a return of [mine] with a block says about the engine before and
    after. *)
Lemma mine_block_result (fuel : nat) now c b c' :
  mine fuel now c = Some (Return (MinedBlock b), c') ->
  exists tip : Block,
    pending c <> []
    /\ last (chain c) = Some tip
    /\ b = sealed (nonce b) (candidate now c tip)
    /\ is_valid_proof b = true
    /\ c' = mkConfig (snd (alloc (heap c) []))
              (mkBlockchain (fst (alloc (heap c) [])) (chain c ++ [b])).
Proof.
  intros Hmine.
  destruct (mine_cases _ _ _ _ _ Hmine)
    as [(_ & Hr & _) | [(_ & _ & Hr & _) | (tip & h & b' & Hp & Hl & Hrun & Hr & ->)]];
    try discriminate.
  inversion Hr; subst b'.
  destruct (proof_of_work_valid _ _ _ _ (candidate_consistent now c tip) Hrun)
    as (_ & Hv & Hb).
  exists tip. auto.
Qed.

Lemma run_chain c c' :
  run c c' ->
  exists added : list Block,
    chain c' = chain c ++ added
    /\ Forall (fun b => is_valid_proof b = true) added.
Proof.
  induction 1 as [c | c c' tx _ IH | c c' c'' fuel now r _ IH Hmine
                  | c c' block _ IH | c c' v _ IH].
  - exists []. split; [now rewrite app_nil_r | constructor].
  - exact IH.
  - destruct IH as (added & Hchain & Hvalid).
    destruct (mine_cases _ _ _ _ _ Hmine)
      as [(_ & _ & ->) | [(_ & _ & _ & ->) | (tip & h & b & _ & _ & Hrun & _ & ->)]];
      try (now exists added).
    destruct (proof_of_work_valid _ _ _ _ (candidate_consistent now c' tip) Hrun)
      as (_ & Hv & _).
    exists (added ++ [b]). cbn [chain self_]. split.
    + now rewrite Hchain, app_assoc.
    + apply Forall_app. split; [exact Hvalid | now repeat constructor].
  - destruct IH as (added & Hchain & Hvalid).
    destruct (add_block_result block c') as [-> | (-> & _ & Hv)];
      [now exists added|].
    exists (added ++ [block]). cbn [snd appended chain self_]. split.
    + now rewrite Hchain, app_assoc.
    + apply Forall_app. split; [exact Hvalid | now repeat constructor].
  - exact IH.
Qed.

Lemma reachable_run c :
  reachable c -> exists (now : Time) (st : store), run (Blockchain_init now st) c.
Proof.
  induction 1 as [now st | c tx _ IH | c c' fuel now r _ IH Hmine
                  | c block _ IH | c v _ IH].
  - exists now, st. constructor.
  - destruct IH as (now & st & Hrun). exists now, st. now constructor.
  - destruct IH as (now' & st & Hrun). exists now', st.
    exact (run_mine _ _ _ _ _ _ Hrun Hmine).
  - destruct IH as (now & st & Hrun). exists now, st. now constructor.
  - destruct IH as (now & st & Hrun). exists now, st. now constructor.
Qed.

Lemma Blockchain_init_genesis now (st : store) :
  exists g : Block, chain (Blockchain_init now st) = [g] /\ is_genesis g.
Proof.
  rewrite Blockchain_init_shape. cbn zeta. eexists. split; [reflexivity|].
  unfold is_genesis. repeat split.
  cbn. unfold compute_transactions_hash, contents. cbn [transactions].
  now rewrite lookup_insert_eq.
Qed.

Lemma reachable_genesis_then_valid c :
  reachable c ->
  exists (g : Block) (rest : list Block),
    chain c = g :: rest
    /\ is_genesis g
    /\ Forall (fun b => is_valid_proof b = true) rest.
Proof.
  intros Hreach. destruct (reachable_run c Hreach) as (now & st & Hrun).
  destruct (run_chain _ _ Hrun) as (added & Hchain & Hvalid).
  destruct (Blockchain_init_genesis now st) as (g & Hg & Hgen).
  exists g, added. rewrite Hchain, Hg. auto.
Qed.

(** X7: no sequence of calls removes, replaces or reorders a block: the
    chain afterwards is the chain before followed by the blocks added, and
    each block added passes [is_valid_proof]. *)
Theorem run_appends_valid_blocks c c' :
  run c c' ->
  exists added : list Block,
    chain c' = chain c ++ added
    /\ (length (chain c) <= length (chain c'))%nat
    /\ (forall (i : nat) (b : Block), chain c !! i = Some b -> chain c' !! i = Some b)
    /\ Forall (fun b => is_valid_proof b = true) added.
Proof.
  intros Hrun. destruct (run_chain c c' Hrun) as (added & Hchain & Hvalid).
  exists added. rewrite Hchain. repeat split.
  - rewrite length_app. lia.
  - intros i b Hb. now apply lookup_app_l_Some.
  - exact Hvalid.
Qed.

(** X8: in every engine state reached from a fresh engine the first block is
    the genesis block, index 0 and previous digest "0", with the digests of
    its fields, and every block after it passes [is_valid_proof]: its digest
    has [difficulty] leading zeros and is the digest of its fields. *)
Theorem reachable_chain_valid c :
  reachable c ->
  (exists g : Block, chain c !! 0%nat = Some g /\ is_genesis g)
  /\ forall (i : nat) (b : Block),
       (0 < i)%nat -> chain c !! i = Some b ->
       is_valid_proof b = true
       /\ meets_target (hash b)
       /\ hash b = compute_hash b.
Proof.
  intros Hreach.
  destruct (reachable_genesis_then_valid c Hreach) as (g & rest & Hchain & Hgen & Hvalid).
  rewrite Hchain. split; [exists g; auto|].
  intros i b Hi Hb. destruct i as [|i]; [lia|]. cbn in Hb.
  rewrite Forall_lookup in Hvalid. pose proof (Hvalid i b Hb) as Hv.
  split; [exact Hv|]. now apply is_valid_proof_iff.
Qed.


(** X10: once a block has been appended, by [add_block] or by [mine], a
    block that does not name the digest of the new tip is refused and leaves
    the engine as it is; a block built on the old tip comes too late. *)
Theorem tip_moved_rejects (fuel : nat) now c b c' (late : Block) :
  add_block b c = (true, c')
  \/ mine fuel now c = Some (Return (MinedBlock b), c') ->
  previous_hash late <> hash b ->
  add_block late c' = (false, c').
Proof.
  intros Hmoved Hlate.
  assert (Htip : last (chain c') = Some b).
  { destruct Hmoved as [Hadd | Hmine].
    - destruct (add_block_result b c) as [Hrej | (Hacc & _)];
        rewrite Hadd in *; [discriminate|].
      inversion Hacc; subst c'. cbn. apply last_snoc.
    - destruct (mine_block_result _ _ _ _ _ Hmine) as (tip & _ & _ & _ & _ & ->).
      cbn. apply last_snoc. }
  destruct (add_block_cases late c') as (Hbad & _).
  apply Hbad. unfold links_to_tip. now rewrite Htip.
Qed.

(** X11: admission never reads the payloads.  [compute_hash] takes the stored
    [transactions_hash], so a block that links to the tip and passes
    [is_valid_proof] is appended whatever its list holds by then, and
    whichever list it holds. *)
Theorem add_block_ignores_payloads block c (st' : store) (l : loc) :
  links_to_tip block c ->
  is_valid_proof block = true ->
  add_block (set_transactions l block) (mkConfig st' c)
  = (true, appended (set_transactions l block) (mkConfig st' c)).
Proof.
  intros Hlinks Hv.
  destruct (add_block_cases (set_transactions l block) (mkConfig st' c))
    as (_ & _ & Hok).
  apply Hok; [exact Hlinks | exact Hv].
Qed.

(** ** The pool *)

Lemma add_new_transaction_store (transaction : string) c (l : loc) :
  (l <> unconfirmed_transactions c ->
   contents (heap (add_new_transaction transaction c)) l = contents (heap c) l)
  /\ (l ∈ dom (heap c) -> l ∈ dom (heap (add_new_transaction transaction c))).
Proof.
  unfold add_new_transaction, list_append, contents. cbn [heap]. split.
  - intros Hne. now rewrite lookup_insert_ne by congruence.
  - apply dom_insert_old.
Qed.

Lemma add_new_transactions_effect (txs : list string) c :
  pending (add_new_transactions txs c) = pending c ++ txs
  /\ unconfirmed_transactions (add_new_transactions txs c) = unconfirmed_transactions c
  /\ chain (add_new_transactions txs c) = chain c
  /\ (forall l : loc, l <> unconfirmed_transactions c ->
        contents (heap (add_new_transactions txs c)) l = contents (heap c) l)
  /\ (forall l : loc, l ∈ dom (heap c) -> l ∈ dom (heap (add_new_transactions txs c))).
Proof.
  revert c. induction txs as [|tx txs IH]; intros c.
  - cbn. rewrite app_nil_r. auto.
  - change (add_new_transactions (tx :: txs) c)
      with (add_new_transactions txs (add_new_transaction tx c)).
    destruct (IH (add_new_transaction tx c)) as (Hp & Hu & Hc & Hframe & Hdom).
    change (unconfirmed_transactions (add_new_transaction tx c))
      with (unconfirmed_transactions c) in *.
    change (chain (add_new_transaction tx c)) with (chain c) in *.
    repeat split; try assumption.
    + rewrite Hp. unfold pending, add_new_transaction, list_append, contents.
      cbn [heap self_ unconfirmed_transactions].
      rewrite lookup_insert_eq. cbn. now rewrite <- app_assoc.
    + intros l Hl. rewrite (Hframe l Hl).
      now apply add_new_transaction_store.
    + intros l Hl. apply Hdom. now apply add_new_transaction_store.
Qed.

(** X12: payloads submitted one after the other queue up in the pool in the
    order of the calls, behind those already waiting; the pool stays the same
    list object, the chain is untouched, and so is every other list. *)
Theorem add_new_transactions_queue (txs : list string) c :
  pending (add_new_transactions txs c) = pending c ++ txs
  /\ unconfirmed_transactions (add_new_transactions txs c) = unconfirmed_transactions c
  /\ chain (add_new_transactions txs c) = chain c
  /\ forall l : loc, l <> unconfirmed_transactions c ->
       contents (heap (add_new_transactions txs c)) l = contents (heap c) l.
Proof.
  destruct (add_new_transactions_effect txs c) as (Hp & Hu & Hc & Hframe & _).
  auto.
Qed.

(** The engine after [mine] has returned a block, as later readers see it. *)
Lemma mine_block_effect (fuel : nat) now c b c' :
  mine fuel now c = Some (Return (MinedBlock b), c') ->
  exists tip : Block,
    last (chain c) = Some tip
    /\ pending c <> []
    /\ index b = index tip + 1
    /\ previous_hash b = hash tip
    /\ transactions b = unconfirmed_transactions c
    /\ transactions b ∈ dom (heap c)
    /\ transactions b <> unconfirmed_transactions c'
    /\ chain c' = chain c ++ [b]
    /\ pending c' = []
    /\ (forall l : loc, l ∈ dom (heap c) -> contents (heap c') l = contents (heap c) l)
    /\ (forall l : loc, l ∈ dom (heap c) -> l ∈ dom (heap c')).
Proof.
  intros Hmine.
  destruct (mine_block_result _ _ _ _ _ Hmine) as (tip & Hp & Hl & Hb & _ & ->).
  assert (Hpool : unconfirmed_transactions c ∈ dom (heap c))
    by now apply contents_in_dom.
  exists tip. rewrite Hb.
  cbn [heap self_ chain unconfirmed_transactions]. repeat split; try assumption.
  - intros Heq. apply (is_fresh (dom (heap c))).
    unfold alloc in Heq. cbn [fst] in Heq. cbn in Heq. now rewrite <- Heq.
  - unfold pending. cbn [heap self_ unconfirmed_transactions].
    apply contents_alloc_new.
  - intros l Hin. now apply contents_alloc_old.
  - intros l Hin. unfold alloc. cbn [snd]. now apply dom_insert_old.
Qed.

(** X13: [mine] gives its block the list object of the pool and takes a new
    list for the pool, so payloads submitted afterwards do not reach the block
    just mined: it keeps the payloads the pool had when [mine] was called, and
    the pool holds the later ones only. *)
Theorem mined_block_keeps_payloads (fuel : nat) now c b c' (later : list string) :
  mine fuel now c = Some (Return (MinedBlock b), c') ->
  payloads c' b = pending c
  /\ payloads (add_new_transactions later c') b = pending c
  /\ pending (add_new_transactions later c') = later.
Proof.
  intros Hmine.
  destruct (mine_block_effect _ _ _ _ _ Hmine)
    as (tip & _ & _ & _ & _ & Ht & Hdom & Hne & _ & Hempty & Hold & _).
  destruct (add_new_transactions_effect later c') as (Hp & _ & _ & Hframe & _).
  assert (Hnow : payloads c' b = pending c).
  { unfold payloads, pending. rewrite (Hold _ Hdom). now rewrite Ht. }
  repeat split.
  - exact Hnow.
  - unfold payloads. rewrite (Hframe _ Hne). exact Hnow.
  - now rewrite Hp, Hempty.
Qed.


(** ** Engines whose blocks all come from [mine] *)

Lemma new_list_owns (v : list string) c :
  store_closed c /\ pool_unshared c ->
  store_closed (mkConfig (snd (alloc (heap c) v)) c)
  /\ pool_unshared (mkConfig (snd (alloc (heap c) v)) c).
Proof.
  intros [[Hp Hb] Hu]. unfold store_closed, pool_unshared, alloc.
  cbn [heap self_ snd]. repeat split.
  - now apply dom_insert_old.
  - intros b Hin. now apply dom_insert_old, Hb.
  - exact Hu.
Qed.

Lemma mined_only_keeps_invariant c : mined_only c -> mined_only_invariant c.
Proof.
  induction 1 as [now st | c tx _ IH | c c' fuel now r _ IH Hmine | c v _ IH].
  - destruct (Blockchain_init_owns now st) as [Hclosed Hunshared].
    split; [exact Hclosed|]. split; [exact Hunshared|].
    rewrite Blockchain_init_shape. cbn zeta. cbn [chain self_ heap].
    intros i b Hb. destruct i as [|i]; [|discriminate].
    inversion Hb; subst b. repeat split.
  - destruct IH as (Hclosed & Hunshared & Hblocks).
    destruct (add_new_transaction_owns tx c (conj Hclosed Hunshared)) as [Hc' Hu'].
    split; [exact Hc'|]. split; [exact Hu'|].
    intros i b Hb. change (chain (add_new_transaction tx c)) with (chain c) in Hb.
    destruct (Hblocks i b Hb) as (Hi & Hth & Hh).
    repeat split; try assumption.
    rewrite Hth. unfold compute_transactions_hash. f_equal. f_equal.
    symmetry. apply add_new_transaction_store.
    apply Hunshared. apply list_elem_of_lookup. eauto.
  - destruct IH as (Hclosed & Hunshared & Hblocks).
    destruct (mine_owns _ _ _ _ _ Hmine (conj Hclosed Hunshared)) as [Hc' Hu'].
    split; [exact Hc'|]. split; [exact Hu'|].
    destruct (mine_cases _ _ _ _ _ Hmine)
      as [(_ & _ & ->) | [(_ & _ & _ & ->) | (tip & h & b' & Hp & Hl & Hrun & -> & Hc)]];
      try exact Hblocks.
    destruct (mine_block_effect _ _ _ _ _ Hmine)
      as (tip' & Hl' & _ & Hi & _ & Ht & Hdom & _ & Hchain & _ & Hold & _).
    assert (tip' = tip) as -> by congruence.
    destruct (proof_of_work_valid _ _ _ _ (candidate_consistent now c tip) Hrun)
      as (_ & Hv & Hb').
    apply is_valid_proof_iff in Hv as [_ Hcons].
    intros i b Hb. rewrite Hchain in Hb.
    destruct (decide (i < length (chain c))%nat) as [Hin | Hout].
    + rewrite lookup_app_l in Hb by exact Hin.
      destruct (Hblocks i b Hb) as (Hidx & Hth & Hh).
      repeat split; try assumption.
      rewrite Hth. unfold compute_transactions_hash. f_equal. f_equal.
      symmetry. apply Hold. destruct Hclosed as [_ Hrefs].
      apply Hrefs. apply list_elem_of_lookup. eauto.
    + pose proof (lookup_lt_Some _ _ _ Hb) as Hlen.
      rewrite length_app in Hlen. cbn [length] in Hlen.
      assert (Hi' : i = length (chain c)) by lia.
      rewrite lookup_app_r in Hb by lia.
      rewrite Hi', Nat.sub_diag in Hb. cbn in Hb. inversion Hb; subst b.
      rewrite last_lookup in Hl.
      assert (Hpos : (0 < length (chain c))%nat).
      { destruct (chain c); [discriminate | cbn; lia]. }
      destruct (Hblocks _ _ Hl) as (Htip & _ & _).
      repeat split.
      * rewrite Hi, Htip, Hi'. lia.
      * rewrite Hb'. cbn. unfold compute_transactions_hash. cbn [transactions].
        f_equal. f_equal. symmetry. apply Hold.
        destruct Hclosed as [Hpool _]. exact Hpool.
      * exact Hcons.
  - destruct IH as (Hclosed & Hunshared & Hblocks).
    destruct (new_list_owns v c (conj Hclosed Hunshared)) as [Hc' Hu'].
    split; [exact Hc'|]. split; [exact Hu'|].
    cbn [chain self_ heap]. intros i b Hb.
    destruct (Hblocks i b Hb) as (Hi & Hth & Hh).
    repeat split; try assumption.
    rewrite Hth. unfold compute_transactions_hash. f_equal. f_equal.
    symmetry. apply contents_alloc_old. destruct Hclosed as [_ Hrefs].
    apply Hrefs. apply list_elem_of_lookup. eauto.
Qed.

(** X15: on an engine whose blocks all come from [mine], every block sits at
    the position its index says: the block at position [i] of the chain has
    index [i]. *)
Theorem mined_only_index_is_position c (i : nat) (b : Block) :
  mined_only c -> chain c !! i = Some b -> index b = Z.of_nat i.
Proof.
  intros Honly Hb.
  destruct (mined_only_keeps_invariant c Honly) as (_ & _ & Hblocks).
  now destruct (Hblocks i b Hb).
Qed.

(** X16: on an engine whose blocks all come from [mine], the digests stored
    in every accepted block are those of what the block holds now:
    [transactions_hash] is the digest of its payloads and [hash] the digest of
    its fields; and no block shares its list with the pool. *)
Theorem mined_only_digests_current c (b : Block) :
  mined_only c ->
  b ∈ chain c ->
  transactions_hash b = sha256 (concatenation (payloads c b))
  /\ transactions_hash b = compute_transactions_hash (heap c) b
  /\ hash b = compute_hash b
  /\ transactions b <> unconfirmed_transactions c.
Proof.
  intros Honly Hin.
  destruct (mined_only_keeps_invariant c Honly) as (_ & Hunshared & Hblocks).
  apply list_elem_of_lookup in Hin as [i Hi].
  destruct (Hblocks i b Hi) as (_ & Hth & Hh).
  repeat split; try assumption.
  - rewrite Hth. unfold compute_transactions_hash, payloads, concatenation.
    now rewrite join_empty.
  - apply Hunshared. apply list_elem_of_lookup. eauto.
Qed.

End Behaviour.

(** * With SHA-256 *)

(** ** The digest has 64 characters *)

Lemma hex_of_word_length (n : nat) (w : Z) :
  String.length (SHA256.hex_of_word n w) = n.
Proof. induction n as [|n IH]; cbn; [reflexivity | now rewrite IH]. Qed.

Lemma round_registers (acc : list Z * list Z) (k : Z) :
  length (fst acc) = 8%nat -> length (fst (SHA256.round acc k)) = 8%nat.
Proof.
  destruct acc as [regs window]. cbn [fst]. intros Hregs.
  do 9 (destruct regs as [|? regs]; try discriminate).
  unfold SHA256.round.
  do 17 (destruct window as [|? window]; [reflexivity|]).
  reflexivity.
Qed.

Lemma fold_left_preserves {A B : Type} (P : A -> Prop) (f : A -> B -> A) :
  (forall a b, P a -> P (f a b)) ->
  forall (l : list B) (a : A), P a -> P (fold_left f l a).
Proof.
  intros Hf l. induction l as [|b l IH]; intros a Ha; [exact Ha|].
  cbn [fold_left]. apply IH, Hf, Ha.
Qed.

Lemma rounds_registers (ks : list Z) (acc : list Z * list Z) :
  length (fst acc) = 8%nat -> length (fst (fold_left SHA256.round ks acc)) = 8%nat.
Proof.
  apply (fold_left_preserves (fun acc => length (fst acc) = 8%nat) SHA256.round).
  intros a k. apply round_registers.
Qed.

Lemma compress_length (digest block : list Z) :
  length digest = 8%nat -> length (SHA256.compress digest block) = 8%nat.
Proof.
  intros Hd. unfold SHA256.compress.
  pose proof (rounds_registers SHA256.round_constants (digest, block) Hd) as Hregs.
  destruct (fold_left SHA256.round SHA256.round_constants (digest, block))
    as [regs window].
  cbn [fst] in Hregs.
  rewrite length_map, length_combine, Hd, Hregs. reflexivity.
Qed.

Lemma initial_digest_length : length SHA256.initial_digest = 8%nat.
Proof. reflexivity. Qed.

Lemma digest_words_length (data : string) :
  length (SHA256.digest_words data) = 8%nat.
Proof.
  unfold SHA256.digest_words.
  apply (fold_left_preserves (fun d => length d = 8%nat) SHA256.compress compress_length).
  exact initial_digest_length.
Qed.

Lemma join_words_length (ws : list Z) :
  String.length (join "" (List.map (SHA256.hex_of_word 8) ws)) = (8 * length ws)%nat.
Proof.
  induction ws as [|w ws IH]; [reflexivity|].
  cbn [List.map]. rewrite join_empty_cons, length_append, hex_of_word_length, IH.
  cbn [length]. lia.
Qed.

Lemma sha256_length (data : string) :
  String.length (sha256 (Hashlib := hashlib) data) = 64%nat.
Proof.
  change (sha256 (Hashlib := hashlib) data)
    with (join "" (List.map (SHA256.hex_of_word 8) (SHA256.digest_words data))).
  rewrite join_words_length, digest_words_length. reflexivity.
Qed.

Lemma leading_zeros_le_length (s : string) :
  (leading_zeros s <= String.length s)%nat.
Proof.
  induction s as [|a s IH]; [reflexivity|].
  rewrite leading_zeros_cons. cbn [String.length].
  destruct (Ascii.eqb a "0"); lia.
Qed.

Section Sha256.

Context {Time : Type} {Time_str : Str Time} {attrs : ClassAttributes}.

#[local] Existing Instance hashlib.

Implicit Types (b block : @Block Time) (c : @Config Time).

Lemma compute_hash_length b :
  String.length (compute_hash (hl := hashlib) b) = 64%nat.
Proof. unfold compute_hash. apply sha256_length. Qed.

Lemma high_difficulty_unmet b :
  64 < difficulty -> ~ meets_target (compute_hash (hl := hashlib) b).
Proof.
  unfold meets_target. intros Hd Hm.
  pose proof (leading_zeros_le_length (compute_hash (hl := hashlib) b)) as Hle.
  rewrite compute_hash_length in Hle. lia.
Qed.


(** X17: a SHA-256 digest has 64 hexadecimal characters, so with
    [difficulty] above 64 no block passes [is_valid_proof], [add_block]
    refuses every block and leaves the engine as it is, and [mine] on a pool
    that is not empty searches without end. *)
Theorem difficulty_above_64 (fuel : nat) now b c tip :
  64 < difficulty ->
  is_valid_proof (hl := hashlib) b = false
  /\ add_block (hl := hashlib) b c = (false, c)
  /\ (pending c <> [] -> last (chain c) = Some tip ->
      mine (hl := hashlib) fuel now c = None).
Proof.
  intros Hd.
  assert (Hinvalid : forall b', is_valid_proof (hl := hashlib) b' = false).
  { intros b'. destruct (is_valid_proof b') eqn:Hv; [|reflexivity].
    apply is_valid_proof_iff in Hv as [Hm Hcons]. rewrite Hcons in Hm.
    now apply high_difficulty_unmet in Hm. }
  split; [apply Hinvalid|]. split.
  - destruct (add_block_result b c) as [Hrej | (_ & _ & Hv)]; [exact Hrej|].
    rewrite Hinvalid in Hv. discriminate.
  - intros Hp Hl. unfold mine. destruct (pending c); [congruence|].
    rewrite Hl. fold (candidate (hl := hashlib) now c tip).
    assert (Hnone : proof_of_work (hl := hashlib) fuel (candidate (hl := hashlib) now c tip)
                    = None).
    { apply proof_of_work_none_iff. split.
      - rewrite candidate_consistent. now apply high_difficulty_unmet.
      - intros j _. now apply high_difficulty_unmet. }
    now rewrite Hnone.
Qed.

(** X18: on an engine reached from a fresh one the digest of the tip is a
    SHA-256 digest, 64 characters long, so [add_block] refuses every block
    whose [previous_hash] has another length and leaves the engine as it is;
    in particular a block that names "0" as the genesis block does is never
    admitted. *)
Theorem add_block_rejects_short_link block c :
  reachable (hl := hashlib) c ->
  String.length (previous_hash block) <> 64%nat ->
  add_block (hl := hashlib) block c = (false, c).
Proof.
  intros Hreach Hlen.
  destruct (reachable_genesis_then_valid c Hreach) as (g & rest & Hchain & Hgen & Hvalid).
  destruct (add_block_cases block c) as (Hbad & _). apply Hbad.
  unfold links_to_tip. destruct (last (chain c)) as [tip|] eqn:Hl.
  - intros Heq. apply Hlen. rewrite Heq.
    assert (Hcons : hash tip = compute_hash (hl := hashlib) tip).
    { rewrite Hchain in Hl. destruct rest as [|b0 rest'] using rev_ind.
      - inversion Hl; subst tip. now destruct Hgen as (_ & _ & _ & _ & ?).
      - rewrite app_comm_cons, last_snoc in Hl. inversion Hl; subst tip.
        apply Forall_app in Hvalid as [_ Hb0]. inversion Hb0 as [|? ? Hv _]; subst.
        now apply is_valid_proof_iff in Hv. }
    rewrite Hcons. apply compute_hash_length.
  - rewrite Hchain in Hl. rewrite last_lookup in Hl. cbn in Hl.
    apply lookup_ge_None in Hl. cbn in Hl. lia.
Qed.

End Sha256.

(** * The program at work *)

(** ** SHA-256 on the test vectors of the standard *)

Example sha256_empty :
  SHA256.hexdigest ""
  = "e3b0c44298fc1c149afbf4c8996fb92427ae41e4649b934ca495991b7852b855".
Proof. vm_compute. reflexivity. Qed.

Example sha256_abc :
  SHA256.hexdigest "abc"
  = "ba7816bf8f01cfea414140de5dae2223b00361a396177a9cb410ff61f20015ad".
Proof. vm_compute. reflexivity. Qed.

Example sha256_two_blocks :
  SHA256.hexdigest "abcdbcdecdefdefgefghfghighijhijkijkljklmklmnlmnomnopnopq"
  = "248d6a61d20638b8e5c026930c3e6039a33ce45964ff2167f6ecedd419db06c1".
Proof. vm_compute. reflexivity. Qed.

Example sha256_constants :
  length SHA256.round_constants = 64%nat
  /\ head SHA256.round_constants = Some 0x428a2f98
  /\ last SHA256.round_constants = Some 0xc67178f2
  /\ head SHA256.initial_digest = Some 0x6a09e667
  /\ last SHA256.initial_digest = Some 0x5be0cd19.
Proof. vm_compute. auto 6. Qed.

(** ** Sample runs *)

Example str_int_samples :
  (str 0, str 1700000060, str (-12)) = ("0", "1700000060", "-12").
Proof. reflexivity. Qed.

Example engine0_state :
  chain engine0 = [genesis0]
  /\ unconfirmed_transactions engine0 = 0%nat
  /\ pending engine0 = [].
Proof. vm_compute. auto. Qed.

Example pool_block_digest :
  nonce pool_block = 10749
  /\ hash pool_block
     = "00009fa29416196867fb154e423b4d39aad690fc5df1f1da5018d7be54fa4855".
Proof. vm_compute. auto. Qed.

Example engine_shared_chain : chain engine_shared = [genesis0; pool_block].
Proof. vm_compute. reflexivity. Qed.

(** With one leading zero asked for, the search of [mine] on the two
    payloads stops at nonce 13. *)
Example mine_difficulty_one :
  match mine (hl := hashlib) (attrs := 1) 16 (Float "1700000060.0") engine_ab with
  | Some (Return (MinedBlock b), c') =>
      nonce b = 13
      /\ hash b = "01dab2dee12b01ed1af1bb6d40b2b7c845a24fe27a3f237dca11dd7f8d58c068"
      /\ chain c' = [genesis0; b]
      /\ payloads c' b = ["A pays B 1 unit"; "B pays C 2 units"]
      /\ pending c' = []
  | _ => False
  end.
Proof. vm_compute. auto 6. Qed.

(** ** Instances of the claims *)



Lemma reachable_linked_witness :
  reachable (hl := hashlib) (attrs := Blockchain_attrs) engine_shared
  /\ chain engine_shared !! 0%nat = Some genesis0
  /\ chain engine_shared !! 1%nat = Some pool_block
  /\ previous_hash pool_block = hash genesis0.
Proof.
  assert (Hreach : reachable (hl := hashlib) (attrs := Blockchain_attrs) engine_shared).
  { unfold engine_shared, engine_a, engine0.
    apply reach_add_block, reach_add_new_transaction, reach_init. }
  assert (H0 : chain engine_shared !! (1 - 1)%nat = Some genesis0)
    by (vm_compute; reflexivity).
  assert (H1 : chain engine_shared !! 1%nat = Some pool_block)
    by (vm_compute; reflexivity).
  split; [exact Hreach|]. split; [exact H0|]. split; [exact H1|].
  apply (reachable_linked (hl := hashlib) (attrs := Blockchain_attrs)
           engine_shared 1 genesis0 pool_block Hreach); [lia | exact H0 | exact H1].
Defined.

Lemma add_block_spec_witness :
  add_block (hl := hashlib) (attrs := Blockchain_attrs) pool_block engine_a
  = (true, appended pool_block engine_a)
  /\ add_block (hl := hashlib) (attrs := Blockchain_attrs) stale_block engine_a
     = (false, engine_a).
Proof.
  split.
  - apply (proj2 (proj2 (add_block_spec (hl := hashlib) (attrs := Blockchain_attrs)
                            pool_block engine_a))).
    + unfold links_to_tip. vm_compute. reflexivity.
    + vm_compute. reflexivity.
  - apply (proj1 (add_block_spec (hl := hashlib) (attrs := Blockchain_attrs)
                     stale_block engine_a)).
    unfold links_to_tip. vm_compute. discriminate.
Defined.

Lemma is_valid_proof_spec_witness :
  is_valid_proof (hl := hashlib) (attrs := Blockchain_attrs) pool_block = true
  /\ is_valid_proof (hl := hashlib) (attrs := Blockchain_attrs) stale_block = false.
Proof.
  split.
  - apply (proj1 (is_valid_proof_spec (hl := hashlib) (attrs := Blockchain_attrs)
                     pool_block)).
    split.
    + unfold meets_target. apply Z.leb_le. vm_compute. reflexivity.
    + vm_compute. reflexivity.
  - apply (proj2 (proj2 (is_valid_proof_spec (hl := hashlib)
                            (attrs := Blockchain_attrs) stale_block))).
    vm_compute. discriminate.
Defined.


Lemma mine_empty_pool_witness :
  pending engine0 = []
  /\ mine (hl := hashlib) (attrs := Blockchain_attrs) 7 (Float "1700000060.0") engine0
     = Some (Return MinedFalse, engine0).
Proof.
  assert (Hp : pending engine0 = []) by reflexivity.
  split; [exact Hp|].
  apply (mine_empty_pool (hl := hashlib) (attrs := Blockchain_attrs)). exact Hp.
Defined.

Lemma compute_transactions_hash_spec_witness :
  contents split_store 0%nat <> contents split_store 1%nat
  /\ concatenation (contents split_store 0%nat)
     = concatenation (contents split_store 1%nat)
  /\ transactions_hash
       (Block_init (hl := hashlib) split_store 1 0%nat (Float "1700000060.0") "0" 0)
     = transactions_hash
         (Block_init (hl := hashlib) split_store 1 1%nat (Float "1700000060.0") "0" 0).
Proof.
  assert (Hcat : concatenation (contents split_store 0%nat)
                 = concatenation (contents split_store 1%nat)) by reflexivity.
  split; [vm_compute; discriminate|]. split; [exact Hcat|].
  apply (proj2 (compute_transactions_hash_spec (hl := hashlib)
                  split_store split_store genesis0 1 1 0%nat 1%nat
                  (Float "1700000060.0") (Float "1700000060.0") "0" "0" 0 0)).
  exact Hcat.
Defined.

(** C9 as it is written fails on a block whose [hash] field no longer is the
    digest of its fields: [proof_of_work] tests the stored digest, finds four
    zeros and returns it untouched, and it is not what [compute_hash] gives. *)
Lemma proof_of_work_stale_counterexample :
  proof_of_work (hl := hashlib) (attrs := Blockchain_attrs) 0 stale_block
  = Some ("0000", stale_block)
  /\ compute_hash (hl := hashlib) stale_block
     = "c5210d7464e799518db6325539f02897ad35d830f098e5893b3f47866835b5cf"
  /\ ~ proof_of_work_returns_post (hl := hashlib) (attrs := Blockchain_attrs)
        stale_block.
Proof.
  assert (Hrun : proof_of_work (hl := hashlib) (attrs := Blockchain_attrs) 0 stale_block
                 = Some ("0000", stale_block)) by reflexivity.
  assert (Hdigest : compute_hash (hl := hashlib) stale_block
                    = "c5210d7464e799518db6325539f02897ad35d830f098e5893b3f47866835b5cf")
    by (vm_compute; reflexivity).
  repeat split; try assumption.
  intros Hpost. destruct (Hpost _ _ _ Hrun) as (_ & _ & _ & _ & _ & Heq).
  rewrite Hdigest in Heq. discriminate Heq.
Qed.

Lemma proof_of_work_spec_witness :
  hash (candidate (hl := hashlib) (Float "1700000060.0") engine_ab genesis0)
  = compute_hash (hl := hashlib)
      (candidate (hl := hashlib) (Float "1700000060.0") engine_ab genesis0)
  /\ proof_of_work_returns_post (hl := hashlib) (attrs := Blockchain_attrs)
       (candidate (hl := hashlib) (Float "1700000060.0") engine_ab genesis0).
Proof.
  assert (Hb : hash (candidate (hl := hashlib) (Float "1700000060.0") engine_ab genesis0)
               = compute_hash (hl := hashlib)
                   (candidate (hl := hashlib) (Float "1700000060.0") engine_ab genesis0))
    by (vm_compute; reflexivity).
  split; [exact Hb|].
  exact (proof_of_work_spec (hl := hashlib) (attrs := Blockchain_attrs) _ Hb).
Defined.

(** C10 as it is written fails on an engine that has accepted a block built
    over the list object of its pool: the payload appended to the pool shows
    in the block. *)
Lemma add_new_transaction_shared_counterexample :
  reachable (hl := hashlib) (attrs := Blockchain_attrs) engine_shared
  /\ pool_block ∈ chain engine_shared
  /\ payloads engine_shared pool_block = ["a"]
  /\ payloads (add_new_transaction "c" engine_shared) pool_block = ["a"; "c"]
  /\ ~ add_new_transaction_post "c" engine_shared
        (add_new_transaction "c" engine_shared).
Proof.
  assert (Hin : pool_block ∈ chain engine_shared).
  { apply list_elem_of_lookup. exists 1%nat. vm_compute. reflexivity. }
  assert (Hbefore : payloads engine_shared pool_block = ["a"])
    by (vm_compute; reflexivity).
  assert (Hafter : payloads (add_new_transaction "c" engine_shared) pool_block
                   = ["a"; "c"]) by (vm_compute; reflexivity).
  repeat split; try assumption.
  - unfold engine_shared, engine_a, engine0.
    apply reach_add_block, reach_add_new_transaction, reach_init.
  - intros (_ & _ & _ & Hframe). specialize (Hframe pool_block Hin).
    rewrite Hbefore, Hafter in Hframe. discriminate Hframe.
Qed.

Lemma add_new_transaction_spec_witness :
  pool_unshared engine_ab
  /\ add_new_transaction_post "C pays A 3 units" engine_ab
       (add_new_transaction "C pays A 3 units" engine_ab).
Proof.
  assert (Hpool : pool_unshared engine_ab).
  { intros b Hb.
    replace (chain engine_ab) with [genesis0] in Hb by (vm_compute; reflexivity).
    apply list_elem_of_singleton in Hb as ->. vm_compute. discriminate. }
  split; [exact Hpool|].
  apply (add_new_transaction_spec "C pays A 3 units" engine_ab Hpool).
Defined.
(** ** Instances of the further properties *)

Lemma mine_ab_runs :
  mine (hl := hashlib) (attrs := 1) 16 (Float "1700000060.0") engine_ab
  = Some (Return (MinedBlock mined_ab), engine_ab_mined).
Proof. vm_compute. reflexivity. Qed.

Lemma search_ab_runs :
  proof_of_work (hl := hashlib) (attrs := 1) 16 candidate_ab
  = Some (hash mined_ab, mined_ab).
Proof. vm_compute. reflexivity. Qed.

Lemma proof_of_work_frame_witness :
  proof_of_work (hl := hashlib) (attrs := 1) 16 candidate_ab
  = Some (hash mined_ab, mined_ab)
  /\ index mined_ab = index candidate_ab
  /\ previous_hash mined_ab = previous_hash candidate_ab
  /\ nonce candidate_ab <= nonce mined_ab.
Proof.
  split; [exact search_ab_runs|].
  destruct (proof_of_work_frame (hl := hashlib) (attrs := 1) 16 candidate_ab
              (hash mined_ab) mined_ab search_ab_runs)
    as (Hi & _ & _ & Hp & _ & Hn & _).
  repeat split; assumption.
Defined.

Lemma proof_of_work_idempotent_witness :
  proof_of_work (hl := hashlib) (attrs := 1) 16 candidate_ab
  = Some (hash mined_ab, mined_ab)
  /\ proof_of_work (hl := hashlib) (attrs := 1) 0 mined_ab
     = Some (hash mined_ab, mined_ab).
Proof.
  split; [exact search_ab_runs|].
  exact (proof_of_work_idempotent (hl := hashlib) (attrs := 1) 16 0 candidate_ab
           (hash mined_ab) mined_ab search_ab_runs).
Defined.

Lemma proof_of_work_exhausted_witness :
  proof_of_work (hl := hashlib) (attrs := 1) 5 candidate_ab = None
  /\ ~ meets_target (attrs := 1) (hash candidate_ab).
Proof.
  assert (Hnone : proof_of_work (hl := hashlib) (attrs := 1) 5 candidate_ab = None)
    by (vm_compute; reflexivity).
  split; [exact Hnone|].
  exact (proj1 (proj1 (proj1 (proof_of_work_exhausted (hl := hashlib) (attrs := 1)
                                5 candidate_ab)) Hnone)).
Defined.

Lemma difficulty_not_positive_witness :
  proof_of_work (hl := hashlib) (attrs := -3) 0 stale_block
  = Some (hash stale_block, stale_block)
  /\ is_valid_proof (hl := hashlib) (attrs := -3) stale_block
     = String.eqb (hash stale_block) (compute_hash (hl := hashlib) stale_block).
Proof.
  apply (difficulty_not_positive (hl := hashlib) (attrs := -3) 0 stale_block).
  change (-3 <= 0). lia.
Defined.

Lemma run_appends_valid_blocks_witness :
  run (hl := hashlib) (attrs := Blockchain_attrs) engine0 engine_shared
  /\ exists added : list Block,
       chain engine_shared = chain engine0 ++ added
       /\ Forall (fun b => is_valid_proof (hl := hashlib) (attrs := Blockchain_attrs) b
                           = true) added.
Proof.
  assert (Hrun : run (hl := hashlib) (attrs := Blockchain_attrs) engine0 engine_shared).
  { unfold engine_shared, engine_a.
    apply run_add_block, run_add_new_transaction, run_done. }
  split; [exact Hrun|].
  destruct (run_appends_valid_blocks (hl := hashlib) (attrs := Blockchain_attrs)
              engine0 engine_shared Hrun) as (added & Hchain & _ & _ & Hvalid).
  exists added. split; assumption.
Defined.

Lemma reachable_chain_valid_witness :
  reachable (hl := hashlib) (attrs := Blockchain_attrs) engine_shared
  /\ chain engine_shared !! 1%nat = Some pool_block
  /\ is_valid_proof (hl := hashlib) (attrs := Blockchain_attrs) pool_block = true.
Proof.
  assert (Hreach : reachable (hl := hashlib) (attrs := Blockchain_attrs) engine_shared).
  { unfold engine_shared, engine_a, engine0.
    apply reach_add_block, reach_add_new_transaction, reach_init. }
  assert (H1 : chain engine_shared !! 1%nat = Some pool_block)
    by (vm_compute; reflexivity).
  split; [exact Hreach|]. split; [exact H1|].
  destruct (reachable_chain_valid (hl := hashlib) (attrs := Blockchain_attrs)
              engine_shared Hreach) as [_ Hvalid].
  destruct (Hvalid 1%nat pool_block) as (Hv & _); [lia | exact H1 | exact Hv].
Defined.



Lemma pool_block_admitted :
  add_block (hl := hashlib) (attrs := Blockchain_attrs) pool_block engine_a
  = (true, engine_shared).
Proof. vm_compute. reflexivity. Qed.

Lemma tip_moved_rejects_witness :
  add_block (hl := hashlib) (attrs := Blockchain_attrs) pool_block engine_a
  = (true, engine_shared)
  /\ previous_hash stale_block <> hash pool_block
  /\ add_block (hl := hashlib) (attrs := Blockchain_attrs) stale_block engine_shared
     = (false, engine_shared).
Proof.
  assert (Hlate : previous_hash stale_block <> hash pool_block)
    by (vm_compute; discriminate).
  split; [exact pool_block_admitted|]. split; [exact Hlate|].
  apply (tip_moved_rejects (hl := hashlib) (attrs := Blockchain_attrs)
           0 (Float "1700000060.0") engine_a pool_block engine_shared stale_block).
  - left. exact pool_block_admitted.
  - exact Hlate.
Defined.

Lemma add_block_ignores_payloads_witness :
  payloads (mkConfig changed_store engine_a) pool_block = ["x"; "y"]
  /\ transactions_hash pool_block = sha256 (Hashlib := hashlib) "a"
  /\ add_block (hl := hashlib) (attrs := Blockchain_attrs)
       (set_transactions 0%nat pool_block) (mkConfig changed_store engine_a)
     = (true, appended (set_transactions 0%nat pool_block)
                (mkConfig changed_store engine_a)).
Proof.
  split; [vm_compute; reflexivity|]. split; [vm_compute; reflexivity|].
  apply (add_block_ignores_payloads (hl := hashlib) (attrs := Blockchain_attrs)
           pool_block engine_a changed_store 0%nat).
  - unfold links_to_tip. vm_compute. reflexivity.
  - vm_compute. reflexivity.
Defined.

Lemma mined_block_keeps_payloads_witness :
  mine (hl := hashlib) (attrs := 1) 16 (Float "1700000060.0") engine_ab
  = Some (Return (MinedBlock mined_ab), engine_ab_mined)
  /\ payloads engine_c mined_ab = pending engine_ab
  /\ pending engine_c = ["C pays A 3 units"].
Proof.
  split; [exact mine_ab_runs|].
  destruct (mined_block_keeps_payloads (hl := hashlib) (attrs := 1) 16
              (Float "1700000060.0") engine_ab mined_ab engine_ab_mined
              ["C pays A 3 units"] mine_ab_runs) as (_ & Hkept & Hpool).
  split; [exact Hkept | exact Hpool].
Defined.



Lemma engine_ab_mined_only :
  mined_only (hl := hashlib) (attrs := 1) engine_ab_mined.
Proof.
  apply (only_mine (hl := hashlib) (attrs := 1) engine_ab engine_ab_mined 16
           (Float "1700000060.0") (Return (MinedBlock mined_ab)));
    [|exact mine_ab_runs].
  unfold engine_ab, engine0.
  apply only_add_new_transaction, only_add_new_transaction, only_init.
Qed.

Lemma mined_only_index_is_position_witness :
  mined_only (hl := hashlib) (attrs := 1) engine_ab_mined
  /\ chain engine_ab_mined !! 1%nat = Some mined_ab
  /\ index mined_ab = Z.of_nat 1.
Proof.
  assert (H1 : chain engine_ab_mined !! 1%nat = Some mined_ab)
    by (vm_compute; reflexivity).
  split; [exact engine_ab_mined_only|]. split; [exact H1|].
  exact (mined_only_index_is_position (hl := hashlib) (attrs := 1)
           engine_ab_mined 1 mined_ab engine_ab_mined_only H1).
Defined.

Lemma mined_only_digests_current_witness :
  mined_only (hl := hashlib) (attrs := 1) engine_ab_mined
  /\ mined_ab ∈ chain engine_ab_mined
  /\ transactions_hash mined_ab
     = sha256 (Hashlib := hashlib) (concatenation (payloads engine_ab_mined mined_ab))
  /\ hash mined_ab = compute_hash (hl := hashlib) mined_ab.
Proof.
  assert (Hin : mined_ab ∈ chain engine_ab_mined).
  { apply list_elem_of_lookup. exists 1%nat. vm_compute. reflexivity. }
  split; [exact engine_ab_mined_only|]. split; [exact Hin|].
  destruct (mined_only_digests_current (hl := hashlib) (attrs := 1)
              engine_ab_mined mined_ab engine_ab_mined_only Hin)
    as (Hth & _ & Hh & _).
  split; [exact Hth | exact Hh].
Defined.

Lemma difficulty_above_64_witness :
  is_valid_proof (hl := hashlib) (attrs := 65) pool_block = false
  /\ add_block (hl := hashlib) (attrs := 65) pool_block engine_a = (false, engine_a)
  /\ mine (hl := hashlib) (attrs := 65) 100 (Float "1700000060.0") engine_ab = None.
Proof.
  destruct (difficulty_above_64 (attrs := 65) 100 (Float "1700000060.0")
              pool_block engine_a genesis0) as (Hv & Hadd & _);
    [change (64 < 65); lia|].
  split; [exact Hv|]. split; [exact Hadd|].
  destruct (difficulty_above_64 (attrs := 65) 100 (Float "1700000060.0")
              pool_block engine_ab genesis0) as (_ & _ & Hmine);
    [change (64 < 65); lia|].
  apply Hmine.
  - vm_compute. discriminate.
  - vm_compute. reflexivity.
Defined.

Lemma add_block_rejects_short_link_witness :
  reachable (hl := hashlib) (attrs := Blockchain_attrs) engine_shared
  /\ previous_hash stale_block = "0"
  /\ add_block (hl := hashlib) (attrs := Blockchain_attrs) stale_block engine_shared
     = (false, engine_shared).
Proof.
  assert (Hreach : reachable (hl := hashlib) (attrs := Blockchain_attrs) engine_shared).
  { unfold engine_shared, engine_a, engine0.
    apply reach_add_block, reach_add_new_transaction, reach_init. }
  split; [exact Hreach|]. split; [reflexivity|].
  apply (add_block_rejects_short_link (attrs := Blockchain_attrs)
           stale_block engine_shared Hreach).
  vm_compute. discriminate.
Defined.
